(** * Trail journal page: gallery engine

    A shallow embedding of the interactive parts of the [Home] component
    (the page with the masonry grid, the hover-to-expand handlers, the
    lightbox and the scroll indicator), with the properties of its
    specification stated over it.

    Numbers.  A TypeScript [number] that holds a pixel quantity is embedded
    as [number] below: an exact rational, or one of the three special values
    that division produces ([NaN], [Infinity], [-Infinity]).  Rounding of
    binary64 and the sign of zero are not represented; a zero denominator
    is a positive zero, which is what the subtractions and the DOM getters
    of the page produce.  Image positions inside a post are array indices
    and are embedded as integers ([jsint], with the [NaN] that [% 0]
    yields).  Timestamps of [Date.now()] are integers (milliseconds). *)

From Stdlib Require Import ZArith QArith Qround Qabs Lia Lqa List Bool.
From stdpp Require Import gmap strings.
Import ListNotations.

(* ===================================================================== *)
(** ** Numbers of the host language                                       *)
(* ===================================================================== *)

Module JS.

Inductive number : Type :=
| NaN
| PosInf
| NegInf
| Fin (q : Q).

Definition of_Z (z : Z) : number := Fin (inject_Z z).

Definition Qltb (a b : Q) : bool :=
  match (a ?= b)%Q with Lt => true | _ => false end.

(** [a + b] *)
Definition add (a b : number) : number :=
  match a, b with
  | NaN, _ | _, NaN => NaN
  | PosInf, NegInf | NegInf, PosInf => NaN
  | PosInf, _ | _, PosInf => PosInf
  | NegInf, _ | _, NegInf => NegInf
  | Fin x, Fin y => Fin (x + y)
  end.

(** [- a] *)
Definition neg (a : number) : number :=
  match a with
  | NaN => NaN
  | PosInf => NegInf
  | NegInf => PosInf
  | Fin x => Fin (- x)
  end.

(** [a - b] *)
Definition sub (a b : number) : number := add a (neg b).

(** [a / b]; a finite zero divisor is [+0]. *)
Definition div (a b : number) : number :=
  match a, b with
  | NaN, _ | _, NaN => NaN
  | Fin x, Fin y =>
      if Qeq_bool y 0 then
        match (x ?= 0)%Q with
        | Eq => NaN
        | Gt => PosInf
        | Lt => NegInf
        end
      else Fin (x / y)
  | Fin _, (PosInf | NegInf) => Fin 0
  | PosInf, Fin y => if Qltb y 0 then NegInf else PosInf
  | NegInf, Fin y => if Qltb y 0 then PosInf else NegInf
  | (PosInf | NegInf), (PosInf | NegInf) => NaN
  end.

(** [Math.max(a, b)] *)
Definition Math_max (a b : number) : number :=
  match a, b with
  | NaN, _ | _, NaN => NaN
  | PosInf, _ | _, PosInf => PosInf
  | NegInf, y => y
  | x, NegInf => x
  | Fin x, Fin y => if Qltb x y then Fin y else Fin x
  end.

(** [Math.min(a, b)] *)
Definition Math_min (a b : number) : number :=
  match a, b with
  | NaN, _ | _, NaN => NaN
  | NegInf, _ | _, NegInf => NegInf
  | PosInf, y => y
  | x, PosInf => x
  | Fin x, Fin y => if Qltb y x then Fin y else Fin x
  end.

(** [Math.ceil(a)] *)
Definition Math_ceil (a : number) : number :=
  match a with
  | Fin x => of_Z (Qceiling x)
  | other => other
  end.

(** [Math.abs(a)] *)
Definition Math_abs (a : number) : number :=
  match a with
  | NaN => NaN
  | PosInf | NegInf => PosInf
  | Fin x => Fin (Qabs x)
  end.

(** [a < b] and [a > b]: false as soon as one side is [NaN]. *)
Definition lt (a b : number) : bool :=
  match a, b with
  | NaN, _ | _, NaN => false
  | PosInf, _ => false
  | _, NegInf => false
  | NegInf, _ => true
  | _, PosInf => true
  | Fin x, Fin y => Qltb x y
  end.

Definition gt (a b : number) : bool := lt b a.

(** Truthiness of a number: [NaN] and zero are falsy. *)
Definition truthy (a : number) : bool :=
  match a with
  | NaN => false
  | Fin x => negb (Qeq_bool x 0)
  | _ => true
  end.

(** [a || b] on numbers. *)
Definition or_else (a b : number) : number := if truthy a then a else b.

(** Two numbers denote the same value ([NaN] is compared as a value). *)
Definition same (a b : number) : Prop :=
  match a, b with
  | NaN, NaN | PosInf, PosInf | NegInf, NegInf => True
  | Fin x, Fin y => (x == y)%Q
  | _, _ => False
  end.

(** The value is a whole number that is at least [lo]. *)
Definition integer_at_least (lo : Z) (a : number) : Prop :=
  exists z : Z, a = of_Z z /\ (lo <= z)%Z.

(** The value is a real number of the closed unit interval. *)
Definition in_unit_interval (a : number) : Prop :=
  exists q : Q, a = Fin q /\ (0 <= q)%Q /\ (q <= 1)%Q.

End JS.

(* ===================================================================== *)
(** ** Masonry layout: row spans                                          *)
(* ===================================================================== *)

Module Masonry.
Import JS.

(** What [window.getComputedStyle(grid)] yields for the two properties the
    page reads, after [parseFloat]: a number, [NaN] when the text does not
    start with one (such as [auto] or [normal]). *)
Record GridStyle : Type := {
  grid_auto_rows : number;
  row_gap : number
}.

(** What the layout engine reports for an item: the rendered height of its
    [img] child when [item.querySelector('img')] finds one, and the height
    of the item's own box. *)
Record ItemBox : Type := {
  img_height : option number;
  own_height : number
}.

Record RowMetrics : Type := {
  rowHeight : number;
  rowGap : number
}.

Definition getRowMetrics (grid : GridStyle) : RowMetrics :=
  {| rowHeight := or_else (grid_auto_rows grid) (of_Z 8);
     rowGap := or_else (row_gap grid) (of_Z 16) |}.

(** [(item.querySelector('img') || item).getBoundingClientRect().height] *)
Definition contentHeight (item : ItemBox) : number :=
  match img_height item with
  | Some h => h
  | None => own_height item
  end.

(** [Math.max(1, Math.ceil((height + rowGap) / (rowHeight + rowGap)))],
    the expression shared by [computeSpan] and the two hover handlers. *)
Definition spanOf (height : number) (m : RowMetrics) : number :=
  Math_max (of_Z 1)
    (Math_ceil (div (add height (rowGap m)) (add (rowHeight m) (rowGap m)))).

(** The value [computeSpan] stores in [item.style.gridRowEnd]. *)
Definition computeSpan (item : ItemBox) (grid : GridStyle) : number :=
  let m := getRowMetrics grid in
  let height := contentHeight item in
  spanOf height m.

(** [items.forEach(item => computeSpan(item, grid))] of [resizeAll]. *)
Definition resizeGrid (grid : GridStyle) (items : list ItemBox) : list number :=
  map (fun item => computeSpan item grid) items.

(** A length as the layout engine produces them: finite, not negative. *)
Definition length_px (a : number) : Prop :=
  exists q : Q, a = Fin q /\ (0 <= q)%Q.

(** The result of [parseFloat] on a computed track size or gap: [NaN] or a
    length. *)
Definition parsed_length (a : number) : Prop := a = NaN \/ length_px a.

(** The metric in force: the parsed value, or the default when the parsed
    value is [NaN] or zero. *)
Definition metric_or (parsed : number) (default : Z) : Q :=
  match parsed with
  | Fin q => if Qeq_bool q 0 then inject_Z default else q
  | _ => inject_Z default
  end.

Definition sampleItem : ItemBox :=
  {| img_height := Some (of_Z 200); own_height := of_Z 40 |}.

(** A style whose track size reads [auto] and whose gap is zero. *)
Definition sampleGrid : GridStyle :=
  {| grid_auto_rows := NaN; row_gap := of_Z 0 |}.

(** Items whose images have the given rendered heights. *)
Definition boxesOfHeights (heights : list Z) : list ItemBox :=
  map (fun h => {| img_height := Some (of_Z h); own_height := of_Z h |}) heights.

Definition defaultStyle : GridStyle :=
  {| grid_auto_rows := of_Z 8; row_gap := of_Z 16 |}.

End Masonry.

(* ===================================================================== *)
(** ** Scroll indicator                                                   *)
(* ===================================================================== *)

Module Progress.
Import JS.

(** What [handleScroll] reads from the window and the document. *)
Record Viewport : Type := {
  innerHeight : number;
  scrollHeight : number;
  scrollY : number
}.

(** The argument [handleScroll] passes to [setScrollProgress]. *)
Definition handleScroll (w : Viewport) : number :=
  let windowHeight := innerHeight w in
  let documentHeight := sub (scrollHeight w) windowHeight in
  let scrolled := scrollY w in
  let progress := div scrolled documentHeight in
  Math_min (Math_max progress (of_Z 0)) (of_Z 1).

(** A page exactly as tall as its viewport, not scrolled. *)
Definition short_page : Viewport :=
  {| innerHeight := of_Z 900; scrollHeight := of_Z 900; scrollY := of_Z 0 |}.

End Progress.

(* ===================================================================== *)
(** ** Lightbox                                                           *)
(* ===================================================================== *)

Module Lightbox.

(** An image position as the lightbox stores it. *)
Inductive jsint : Type :=
| INaN
| Int (z : Z).

Definition iadd (a b : jsint) : jsint :=
  match a, b with
  | Int x, Int y => Int (x + y)
  | _, _ => INaN
  end.

Definition isub (a b : jsint) : jsint :=
  match a, b with
  | Int x, Int y => Int (x - y)
  | _, _ => INaN
  end.

(** [a % b]: the remainder takes the sign of the dividend; [% 0] is [NaN]. *)
Definition irem (a b : jsint) : jsint :=
  match a, b with
  | Int x, Int y => if (y =? 0)%Z then INaN else Int (Z.rem x y)
  | _, _ => INaN
  end.

Record Image : Type := {
  src : string;
  alt : string
}.

(** The fields of [BlogPostData] the lightbox looks at; [images] is an
    optional property. *)
Record BlogPostData : Type := {
  title : string;
  images : option (list Image)
}.

Record LightboxState : Type := {
  isOpen : bool;
  currentImageIndex : jsint;
  postIndex : nat
}.

(** The argument of [useState<LightboxState>]. *)
Definition initialLightbox : LightboxState :=
  {| isOpen := false; currentImageIndex := Int 0; postIndex := 0 |}.

Definition openLightbox (postIndex : nat) (imageIndex : nat) : LightboxState :=
  {| isOpen := true;
     currentImageIndex := Int (Z.of_nat imageIndex);
     postIndex := postIndex |}.

Definition closeLightbox : LightboxState :=
  {| isOpen := false; currentImageIndex := Int 0; postIndex := 0 |}.

Inductive Direction : Type := prev | next.

Definition navigateLightbox (posts : list BlogPostData)
    (lightbox : LightboxState) (direction : Direction) : LightboxState :=
  match posts !! postIndex lightbox with
  | None => lightbox
  | Some currentPost =>
      match images currentPost with
      | None => lightbox
      | Some imgs =>
          let totalImages := Int (Z.of_nat (length imgs)) in
          let newIndex :=
            match direction with
            | next => irem (iadd (currentImageIndex lightbox) (Int 1)) totalImages
            | prev =>
                irem (iadd (isub (currentImageIndex lightbox) (Int 1)) totalImages)
                     totalImages
            end in
          {| isOpen := isOpen lightbox;
             currentImageIndex := newIndex;
             postIndex := postIndex lightbox |}
      end
  end.

(** The [img] elements of the page that carry
    [onClick={() => openLightbox(index, imgIndex)}]: those rendered by
    [post.images.map] under the guard
    [post.images && post.images.length > 0]. *)
Definition imageCallSites (posts : list BlogPostData) : list (nat * nat) :=
  concat
    (imap
       (fun index post =>
          match images post with
          | Some imgs =>
              if (0 <? length imgs)%nat
              then imap (fun imgIndex _ => (index, imgIndex)) imgs
              else []
          | None => []
          end)
       posts).

(** A click on image [imgIndex] of post [index]: the handler runs when that
    element is on the page. *)
Definition clickImage (posts : list BlogPostData) (lightbox : LightboxState)
    (index imgIndex : nat) : LightboxState :=
  if bool_decide ((index, imgIndex) ∈ imageCallSites posts)
  then openLightbox index imgIndex
  else lightbox.

Inductive Key : Type := Escape | ArrowLeft | ArrowRight | OtherKey.

(** [handleKeyDown], attached only while [lightbox.isOpen]. *)
Definition handleKeyDown (posts : list BlogPostData)
    (lightbox : LightboxState) (key : Key) : LightboxState :=
  if isOpen lightbox then
    match key with
    | Escape => closeLightbox
    | ArrowLeft => navigateLightbox posts lightbox prev
    | ArrowRight => navigateLightbox posts lightbox next
    | OtherKey => lightbox
    end
  else lightbox.

(** The modal is rendered under
    [lightbox.isOpen && posts[lightbox.postIndex]?.images]; its two arrow
    buttons under [images.length > 1]. *)
Definition modalRendered (posts : list BlogPostData) (lightbox : LightboxState)
    : bool :=
  isOpen lightbox &&
  match posts !! postIndex lightbox with
  | Some post => match images post with Some _ => true | None => false end
  | None => false
  end.

Definition arrowsRendered (posts : list BlogPostData) (lightbox : LightboxState)
    : bool :=
  modalRendered posts lightbox &&
  match posts !! postIndex lightbox with
  | Some post =>
      match images post with
      | Some imgs => (1 <? length imgs)%nat
      | None => false
      end
  | None => false
  end.

(** What a viewer can do to the lightbox. *)
Inductive Gesture : Type :=
| ClickImage (index imgIndex : nat)
| PressKey (key : Key)
| ClickPrev
| ClickNext
| ClickClose.

Definition lightboxStep (posts : list BlogPostData) (lightbox : LightboxState)
    (g : Gesture) : LightboxState :=
  match g with
  | ClickImage index imgIndex => clickImage posts lightbox index imgIndex
  | PressKey key => handleKeyDown posts lightbox key
  | ClickPrev =>
      if arrowsRendered posts lightbox
      then navigateLightbox posts lightbox prev else lightbox
  | ClickNext =>
      if arrowsRendered posts lightbox
      then navigateLightbox posts lightbox next else lightbox
  | ClickClose =>
      if modalRendered posts lightbox then closeLightbox else lightbox
  end.

(** The lightbox shows an image that exists. *)
Definition showsImage (posts : list BlogPostData) (lightbox : LightboxState)
    : Prop :=
  exists post imgs i,
    posts !! postIndex lightbox = Some post /\
    images post = Some imgs /\
    currentImageIndex lightbox = Int i /\
    (0 <= i < Z.of_nat (length imgs))%Z.

(** [next] pressed [k] times. *)
Definition nextTimes (posts : list BlogPostData) (k : nat)
    (lightbox : LightboxState) : LightboxState :=
  Nat.iter k (fun lb => navigateLightbox posts lb next) lightbox.

(** A post without images: the property is absent or the array is empty. *)
Definition noImages (post : BlogPostData) : Prop :=
  images post = None \/ images post = Some [].

Definition three_image_post : BlogPostData :=
  {| title := "Ridge";
     images := Some [ {| src := "a.jpg"; alt := "a" |};
                      {| src := "b.jpg"; alt := "b" |};
                      {| src := "c.jpg"; alt := "c" |} ] |}.

Definition text_post : BlogPostData := {| title := "Rest day"; images := None |}.

Definition sample_posts : list BlogPostData := [text_post; three_image_post].

(** The lightbox after the gestures of [gs], starting closed. *)
Definition lightboxAfter (posts : list BlogPostData) (gs : list Gesture)
    : LightboxState :=
  fold_left (lightboxStep posts) gs initialLightbox.

End Lightbox.

(* ===================================================================== *)
(** ** Slugs                                                              *)
(* ===================================================================== *)

Module Slug.

(** A string is its sequence of UTF-16 code units. *)
Abbreviation jsstring := (list N).

Definition hyphen : N := 45.

(** The class [[a-z0-9]]. *)
Definition is_lower_alnum (c : N) : bool :=
  ((97 <=? c) && (c <=? 122) || (48 <=? c) && (c <=? 57))%N.

(** [.replace(/[^a-z0-9]+/g, '-')]: every maximal run of code units outside
    the class becomes one hyphen. [inRun] tells that the run in progress
    already produced its hyphen. *)
Fixpoint replaceRuns (inRun : bool) (s : jsstring) : jsstring :=
  match s with
  | [] => []
  | c :: rest =>
      if is_lower_alnum c then c :: replaceRuns false rest
      else if inRun then replaceRuns true rest
      else hyphen :: replaceRuns true rest
  end.

(** The alternative [^-] of the second pattern. *)
Definition stripLeading (s : jsstring) : jsstring :=
  match s with
  | c :: rest => if (c =? hyphen)%N then rest else s
  | [] => []
  end.

(** The alternative [-$] of the second pattern. *)
Fixpoint stripTrailing (s : jsstring) : jsstring :=
  match s with
  | [] => []
  | [c] => if (c =? hyphen)%N then [] else [c]
  | c :: rest => c :: stripTrailing rest
  end.

(** [.replace(/(^-|-$)/g, '')] *)
Definition stripEdges (s : jsstring) : jsstring :=
  stripTrailing (stripLeading s).

Section CreateSlug.
(** [String.prototype.toLowerCase], whose Unicode tables are left open. *)
Variable toLowerCase : jsstring -> jsstring.

Definition createSlug (title : jsstring) : jsstring :=
  stripEdges (replaceRuns false (toLowerCase title)).
End CreateSlug.

(** The case mapping restricted to the letters A to Z. *)
Definition asciiLower (s : jsstring) : jsstring :=
  map (fun c => if ((65 <=? c) && (c <=? 90))%N then (c + 32)%N else c) s.

(** Characters a slug may hold. *)
Definition slug_char (c : N) : bool := is_lower_alnum c || (c =? hyphen)%N.

Fixpoint hasDoubleHyphen (s : jsstring) : bool :=
  match s with
  | a :: (b :: _) as rest =>
      ((a =? hyphen)%N && (b =? hyphen)%N) || hasDoubleHyphen rest
  | _ => false
  end.

Definition startsWithHyphen (s : jsstring) : bool :=
  match s with
  | c :: _ => (c =? hyphen)%N
  | [] => false
  end.

Fixpoint endsWithHyphen (s : jsstring) : bool :=
  match s with
  | [] => false
  | [c] => (c =? hyphen)%N
  | _ :: rest => endsWithHyphen rest
  end.

(** What a slug looks like: lowercase letters, digits and hyphens only, no
    hyphen at either end, no two hyphens in a row. *)
Definition wellFormedSlug (s : jsstring) : Prop :=
  forallb slug_char s = true /\
  startsWithHyphen s = false /\
  endsWithHyphen s = false /\
  hasDoubleHyphen s = false.

(** The title [-Hi!! W--]. *)
Definition sampleTitle : jsstring := [45; 72; 105; 33; 33; 32; 87; 45; 45]%N.

End Slug.

(* ===================================================================== *)
(** ** Hover expansion and the forward scroll lock                        *)
(* ===================================================================== *)

Module Hover.
Import JS Masonry.

(** A gallery item is named by its grid (the index of the post that renders
    the grid) and its [data-image-index]. *)
Abbreviation ItemId := (nat * nat)%type.

Definition gridOf (target : ItemId) : nat := fst target.

(** The part of a [.masonry-item] element the handlers write. *)
Record ItemNode : Type := {
  gridColumnFull : bool;      (* style.gridColumn is '1 / -1', not '' *)
  expandedClass : bool;       (* classList has masonry-item-expanded *)
  ownExpandedImage : bool;    (* the item's own classList has expanded-image *)
  imgNode : option bool;      (* the img child, and whether its classList
                                 has expanded-image *)
  gridRowEnd : option number  (* style.gridRowEnd is span n *)
}.

(** What the handlers and the frame callbacks read from the browser when
    they run. *)
Record Env : Type := {
  Date_now : Z;
  window_scrollY : number;
  window_innerHeight : number;
  document_scrollHeight : number;
  styleOf : nat -> GridStyle;
  imgHeightOf : ItemId -> number;
  ownHeightOf : ItemId -> number;
  rectTop : ItemId -> number;
  rectBottom : ItemId -> number;
  hovered : ItemId -> bool      (* target.matches(':hover') *)
}.

(** Callbacks handed to [requestAnimationFrame]. *)
Inductive Task : Type :=
| AfterExpand (target : ItemId)    (* onMouseEnter, outer callback *)
| AfterSpan (target : ItemId)      (* onMouseEnter, inner callback *)
| CheckDone (y : number) (start : Z)
| WaitForUnlock (target : ItemId)
| AfterCollapse (target : ItemId). (* onMouseLeave *)

Record State : Type := {
  items : gmap ItemId ItemNode;
  gridScaleReset : gset nat;            (* grids whose --grid-scale was set to 1 *)
  expandedItemRef : option ItemId;
  expandedGridRef : option nat;
  originalScrollYRef : option number;
  isForwardScrollRef : bool;
  scrollRequests : list number;         (* window.scrollTo calls, newest first *)
  frameQueue : list Task
}.

(** An element the pointer can move to: the grid that contains it, if any,
    and whether [closest('.masonry-item')] finds an item. *)
Record RelatedNode : Type := {
  containingGrid : option nat;
  withinItem : bool
}.

(** [e.relatedTarget] of a mouse-leave as the handler receives it: [null],
    an element, or the [window] object, which React puts there when the
    pointer goes to no element of its tree (out of the page). *)
Inductive RelatedTarget : Type :=
| toNull
| toWindow
| toElement (node : RelatedNode).

Definition set_items (f : gmap ItemId ItemNode -> gmap ItemId ItemNode)
    (st : State) : State :=
  {| items := f (items st);
     gridScaleReset := gridScaleReset st;
     expandedItemRef := expandedItemRef st;
     expandedGridRef := expandedGridRef st;
     originalScrollYRef := originalScrollYRef st;
     isForwardScrollRef := isForwardScrollRef st;
     scrollRequests := scrollRequests st;
     frameQueue := frameQueue st |}.

Definition set_refs (item : option ItemId) (grid : option nat)
    (st : State) : State :=
  {| items := items st;
     gridScaleReset := gridScaleReset st;
     expandedItemRef := item;
     expandedGridRef := grid;
     originalScrollYRef := originalScrollYRef st;
     isForwardScrollRef := isForwardScrollRef st;
     scrollRequests := scrollRequests st;
     frameQueue := frameQueue st |}.

Definition set_original (y : option number) (st : State) : State :=
  {| items := items st;
     gridScaleReset := gridScaleReset st;
     expandedItemRef := expandedItemRef st;
     expandedGridRef := expandedGridRef st;
     originalScrollYRef := y;
     isForwardScrollRef := isForwardScrollRef st;
     scrollRequests := scrollRequests st;
     frameQueue := frameQueue st |}.

Definition set_lock (b : bool) (st : State) : State :=
  {| items := items st;
     gridScaleReset := gridScaleReset st;
     expandedItemRef := expandedItemRef st;
     expandedGridRef := expandedGridRef st;
     originalScrollYRef := originalScrollYRef st;
     isForwardScrollRef := b;
     scrollRequests := scrollRequests st;
     frameQueue := frameQueue st |}.

Definition resetGridScale (grid : nat) (st : State) : State :=
  {| items := items st;
     gridScaleReset := {[grid]} ∪ gridScaleReset st;
     expandedItemRef := expandedItemRef st;
     expandedGridRef := expandedGridRef st;
     originalScrollYRef := originalScrollYRef st;
     isForwardScrollRef := isForwardScrollRef st;
     scrollRequests := scrollRequests st;
     frameQueue := frameQueue st |}.

(** [window.scrollTo({ top: y, behavior: 'smooth' })] *)
Definition scrollTo (y : number) (st : State) : State :=
  {| items := items st;
     gridScaleReset := gridScaleReset st;
     expandedItemRef := expandedItemRef st;
     expandedGridRef := expandedGridRef st;
     originalScrollYRef := originalScrollYRef st;
     isForwardScrollRef := isForwardScrollRef st;
     scrollRequests := y :: scrollRequests st;
     frameQueue := frameQueue st |}.

Definition set_queue (q : list Task) (st : State) : State :=
  {| items := items st;
     gridScaleReset := gridScaleReset st;
     expandedItemRef := expandedItemRef st;
     expandedGridRef := expandedGridRef st;
     originalScrollYRef := originalScrollYRef st;
     isForwardScrollRef := isForwardScrollRef st;
     scrollRequests := scrollRequests st;
     frameQueue := q |}.

Definition requestAnimationFrame (t : Task) (st : State) : State :=
  set_queue (frameQueue st ++ [t]) st.

(** Clearing the column span and both classes, as the two handlers do. *)
Definition collapseNode (n : ItemNode) : ItemNode :=
  {| gridColumnFull := false;
     expandedClass := false;
     ownExpandedImage := ownExpandedImage n;
     imgNode := (fun _ => false) <$> imgNode n;
     gridRowEnd := gridRowEnd n |}.

(** Spanning all columns and adding both classes; [expanded-image] goes to
    [target.querySelector('img') || target]. *)
Definition expandNode (n : ItemNode) : ItemNode :=
  {| gridColumnFull := true;
     expandedClass := true;
     ownExpandedImage :=
       match imgNode n with Some _ => ownExpandedImage n | None => true end;
     imgNode := (fun _ => true) <$> imgNode n;
     gridRowEnd := gridRowEnd n |}.

Definition setSpan (span : number) (n : ItemNode) : ItemNode :=
  {| gridColumnFull := gridColumnFull n;
     expandedClass := expandedClass n;
     ownExpandedImage := ownExpandedImage n;
     imgNode := imgNode n;
     gridRowEnd := Some span |}.

(** The box the layout engine reports for [target] in the current DOM. *)
Definition boxOf (env : Env) (st : State) (target : ItemId) : ItemBox :=
  {| img_height :=
       match items st !! target with
       | Some n => (fun _ => imgHeightOf env target) <$> imgNode n
       | None => None
       end;
     own_height := ownHeightOf env target |}.

(** The row-span recomputation both handlers schedule. *)
Definition recomputeSpan (env : Env) (target : ItemId) (st : State) : State :=
  let span := computeSpan (boxOf env st target) (styleOf env (gridOf target)) in
  set_items (alter (setSpan span) target) st.

Definition onMouseEnter (env : Env) (target : ItemId) (st : State) : State :=
  if isForwardScrollRef st then st
  else
    let grid := gridOf target in
    let st1 :=
      match expandedItemRef st with
      | None => set_original (Some (window_scrollY env)) st
      | Some _ => st
      end in
    let st2 :=
      match expandedItemRef st1 with
      | Some prev =>
          if decide (prev = target) then st1
          else set_items (alter collapseNode prev) st1
      | None => st1
      end in
    let st3 :=
      match expandedGridRef st2 with
      | Some g => if decide (g = grid) then st2 else resetGridScale g st2
      | None => st2
      end in
    let st4 := set_items (alter expandNode target) st3 in
    let st5 := set_refs (Some target) (Some grid) st4 in
    requestAnimationFrame (AfterExpand target) st5.

Definition closeEnough (env : Env) (y : number) : bool :=
  lt (Math_abs (sub (window_scrollY env) y)) (of_Z 2).

Definition timedOut (env : Env) (start : Z) : bool :=
  (1600 <? Date_now env - start)%Z.

(** The event type the deferred collapse dispatches. *)
Inductive CustomEvent : Type := collapse.

(** [target.dispatchEvent(ev)]: the page registers its item handlers as
    [onMouseEnter] and [onMouseLeave] only, so no listener runs. *)
Definition dispatchEvent (target : ItemId) (ev : CustomEvent) (st : State)
    : State :=
  match ev with
  | collapse => st
  end.

Definition runTask (env : Env) (t : Task) (st : State) : State :=
  match t with
  | AfterExpand target =>
      requestAnimationFrame (AfterSpan target) (recomputeSpan env target st)
  | AfterSpan target =>
      let viewportHeight := window_innerHeight env in
      let desiredTop :=
        Math_min
          (sub (add (rectTop env target) (window_scrollY env)) (of_Z 120))
          (sub (document_scrollHeight env) viewportHeight) in
      let outOfViewTop := lt (rectTop env target) (of_Z 80) in
      let outOfViewBottom :=
        gt (rectBottom env target) (sub viewportHeight (of_Z 80)) in
      if outOfViewTop || outOfViewBottom then
        let y := Math_max (of_Z 0) desiredTop in
        let start := Date_now env in
        requestAnimationFrame (CheckDone y start)
          (scrollTo y (set_lock true st))
      else st
  | CheckDone y start =>
      if closeEnough env y || timedOut env start
      then set_lock false st
      else requestAnimationFrame (CheckDone y start) st
  | WaitForUnlock target =>
      if negb (isForwardScrollRef st) then
        if negb (hovered env target)
        then dispatchEvent target collapse st
        else st
      else requestAnimationFrame (WaitForUnlock target) st
  | AfterCollapse target => recomputeSpan env target st
  end.

(** [!!(nextTarget && grid.contains(nextTarget) &&
    nextTarget.closest('.masonry-item'))]; [None] when the expression
    throws: [grid.contains(window)] is a [TypeError], [window] being no
    [Node]. *)
Definition movingWithinGrid (grid : nat) (related : RelatedTarget)
    : option bool :=
  match related with
  | toNull => Some false
  | toWindow => None
  | toElement node =>
      Some (bool_decide (containingGrid node = Some grid) && withinItem node)
  end.

(** The state the handler leaves behind. When [movingWithinGrid] throws,
    the handler ends there: the classes are reset and the recomputation is
    queued, the refs and the scroll position are as they were. *)
Definition onMouseLeave (target : ItemId) (related : RelatedTarget)
    (st : State) : State :=
  let grid := gridOf target in
  if isForwardScrollRef st && bool_decide (expandedItemRef st = Some target)
  then requestAnimationFrame (WaitForUnlock target) st
  else
    let st1 := set_items (alter collapseNode target) st in
    let st2 := requestAnimationFrame (AfterCollapse target) st1 in
    match movingWithinGrid grid related with
    | None => st2
    | Some within =>
        if bool_decide (expandedItemRef st2 = Some target) then
          let st3 := set_refs None None st2 in
          match originalScrollYRef st3 with
          | Some orig =>
              if negb within
              then set_original None (scrollTo (Math_max (of_Z 0) orig) st3)
              else st3
          | None => st3
          end
        else st2
    end.

(** What can happen to the page: the pointer enters or leaves an item, or
    the browser runs the oldest pending frame callback. *)
Inductive Event : Type :=
| MouseEnter (target : ItemId)
| MouseLeave (target : ItemId) (related : RelatedTarget)
| Frame.

Definition step (st : State) (occ : Env * Event) : State :=
  let '(env, ev) := occ in
  match ev with
  | MouseEnter target => onMouseEnter env target st
  | MouseLeave target related => onMouseLeave target related st
  | Frame =>
      match frameQueue st with
      | [] => st
      | t :: rest => runTask env t (set_queue rest st)
      end
  end.

Definition run (trace : list (Env * Event)) (st : State) : State :=
  fold_left step trace st.

(** The freshly rendered page: [hasImg] tells, for every item, whether it
    has an [img] child. *)
Definition freshNode (hasImg : bool) : ItemNode :=
  {| gridColumnFull := false;
     expandedClass := false;
     ownExpandedImage := false;
     imgNode := if hasImg then Some false else None;
     gridRowEnd := None |}.

Definition mount (dom : gmap ItemId bool) : State :=
  {| items := freshNode <$> dom;
     gridScaleReset := ∅;
     expandedItemRef := None;
     expandedGridRef := None;
     originalScrollYRef := None;
     isForwardScrollRef := false;
     scrollRequests := [];
     frameQueue := [] |}.

(** An item is in the expanded state when it carries the class or spans the
    full row. *)
Definition isExpanded (n : ItemNode) : bool :=
  expandedClass n || gridColumnFull n.

Definition expandedItems (st : State) : gmap ItemId ItemNode :=
  filter (fun kv => isExpanded (snd kv) = true) (items st).

(** Every item in the expanded state is the one [expandedItemRef] holds. *)
Definition refTracksExpanded (st : State) : Prop :=
  forall (id : ItemId) (n : ItemNode),
    items st !! id = Some n -> isExpanded n = true ->
    expandedItemRef st = Some id.

(** Frames only: the browser runs one pending callback per entry. *)
Definition runFrames (envs : list Env) (st : State) : State :=
  run (map (fun env => (env, Frame)) envs) st.

End Hover.

(* ===================================================================== *)
(** ** A hover session on one grid of five images                         *)
(* ===================================================================== *)

Module Scenario.
Import JS Masonry Hover.

(** Grid 1 holds five items, each with its [img]. *)
Definition dom : gmap ItemId bool :=
  list_to_map [((1, 0), true); ((1, 1), true); ((1, 2), true);
               ((1, 3), true); ((1, 4), true)]%nat.

(** A 900 px viewport over a 5000 px document. Every image is 200 px high,
    except the one in [wide], which is laid out across the row at 600 px.
    All items report the rectangle [top, bottom]. *)
Definition browser (now scrollY : Z) (wide : option ItemId) (top bottom : Z)
    (pointerOver : option ItemId) : Env :=
  {| Date_now := now;
     window_scrollY := of_Z scrollY;
     window_innerHeight := of_Z 900;
     document_scrollHeight := of_Z 5000;
     styleOf := fun _ => defaultStyle;
     imgHeightOf :=
       fun id => if bool_decide (wide = Some id) then of_Z 600 else of_Z 200;
     ownHeightOf :=
       fun id => if bool_decide (wide = Some id) then of_Z 600 else of_Z 200;
     rectTop := fun _ => of_Z top;
     rectBottom := fun _ => of_Z bottom;
     hovered := fun id => bool_decide (pointerOver = Some id) |}.

Definition item0 : ItemId := (1, 0)%nat.
Definition item2 : ItemId := (1, 2)%nat.

(** An element of the page outside every grid, such as the article text. *)
Definition outsideGrids : RelatedTarget :=
  toElement {| containingGrid := None; withinItem := false |}.

(** The pointer enters item 0, which expands below the fold and is scrolled
    to offset 800 under the lock; the pointer leaves while the lock is
    held; the scroll arrives at 799 after 400 ms and the lock is released;
    the deferred check then finds the pointer outside the item. *)
Definition leaveDuringScroll : list (Env * Event) :=
  [ (browser 1000 300 None 620 820 (Some item0), MouseEnter item0);
    (browser 1016 300 (Some item0) 620 1220 (Some item0), Frame);
    (browser 1032 300 (Some item0) 620 1220 (Some item0), Frame);
    (browser 1100 420 (Some item0) 500 1100 None, MouseLeave item0 outsideGrids);
    (browser 1432 799 (Some item0) 121 721 None, Frame);
    (browser 1448 799 (Some item0) 121 721 None, Frame) ].

(** Afterwards the pointer enters item 2 of the same grid, which is laid
    out in view. *)
Definition thenEnterItem2 : list (Env * Event) :=
  [ (browser 2000 800 (Some item0) 300 500 (Some item2), MouseEnter item2);
    (browser 2016 800 (Some item2) 300 900 (Some item2), Frame);
    (browser 2032 800 (Some item2) 100 700 (Some item2), Frame) ].

(** The lock as the third entry of [leaveDuringScroll] leaves it: target
    800, started at 1032, one polling callback pending. *)
Definition lockedAt800 : State :=
  run (firstn 3 leaveDuringScroll) (mount dom).

(** Frames 16 ms apart in which the smooth scroll advances 50 px per frame
    from 300 up to 799, where it rests. *)
Definition smoothScroll (k : nat) : Env :=
  browser (1048 + 16 * Z.of_nat k)
          (Z.min 799 (350 + 50 * Z.of_nat k))
          (Some item0) 620 1220 (Some item0).

(** Frames 16 ms apart in which the scroll offset never moves. *)
Definition stuckScroll (k : nat) : Env :=
  browser (1048 + 16 * Z.of_nat k) 300 (Some item0) 620 1220 (Some item0).

End Scenario.

(* ===================================================================== *)
(** ** Pending frame callbacks and overlapping forced scrolls             *)
(* ===================================================================== *)

Module Polling.
Import JS Masonry Hover.








End Polling.

(* ===================================================================== *)
(** ** Date badge colour                                                  *)
(* ===================================================================== *)

Module Badge.

(** The conversion [<<] applies to its left operand and to its result. *)
Definition toInt32 (z : Z) : Z :=
  let m := (z mod 2 ^ 32)%Z in
  if (m <? 2 ^ 31)%Z then m else (m - 2 ^ 32)%Z.

(** [acc << 5] *)
Definition shiftLeft5 (acc : Z) : Z := toInt32 (Z.shiftl (toInt32 acc) 5).

(** The reducer [(acc, char) => char.charCodeAt(0) + ((acc << 5) - acc)].
    Only the shift wraps; the sum and the difference are taken on numbers,
    which hold these integers exactly below [2^53]. *)
Definition hashStep (acc : Z) (char : N) : Z :=
  (Z.of_N char + (shiftLeft5 acc - acc))%Z.

(** [imageSrc.split('').reduce(..., 0)] over the code units of the URL. *)
Definition hashOf (imageSrc : list N) : Z := fold_left hashStep imageSrc 0%Z.

Definition colors : list string :=
  [ "bg-blue-500/90"; "bg-green-500/90"; "bg-purple-500/90";
    "bg-orange-500/90"; "bg-pink-500/90"; "bg-teal-500/90";
    "bg-indigo-500/90"; "bg-red-500/90" ]%string.

(** [colors[Math.abs(hash) % colors.length]]; [None] is [undefined]. *)
Definition getContrastColor (imageSrc : list N) : option string :=
  colors !! Z.to_nat (Z.rem (Z.abs (hashOf imageSrc)) (Z.of_nat (length colors))).

(** The code units of [a.jpg]. *)
Definition sampleSrc : list N := [97; 46; 106; 112; 103]%N.

End Badge.

(* ===================================================================== *)
(** ** The modal, the featured image and the page scroll                  *)
(* ===================================================================== *)

Module Modal.
Import Lightbox.

Definition findWidestImage (images : option (list Image)) : option Image :=
  match images with
  | None => None
  | Some [] => None
  | Some (first :: _) => Some first
  end.

(** [document.body.style.overflow]: as the stylesheet leaves it, or one of
    the two values the lightbox functions assign. *)
Inductive Overflow : Type := notSet | hidden | unset.

(** The lightbox state together with the body style its functions write. *)
Record Page : Type := {
  lightbox : LightboxState;
  bodyOverflow : Overflow
}.

Definition initialPage : Page :=
  {| lightbox := initialLightbox; bodyOverflow := notSet |}.

(** [openLightbox] with its assignment to the body style. *)
Definition openLightboxOn (postIndex imageIndex : nat) : Page :=
  {| lightbox := openLightbox postIndex imageIndex; bodyOverflow := hidden |}.

(** [closeLightbox] with its assignment to the body style. *)
Definition closeLightboxOn : Page :=
  {| lightbox := closeLightbox; bodyOverflow := unset |}.

Definition navigateOn (posts : list BlogPostData) (page : Page)
    (direction : Direction) : Page :=
  {| lightbox := navigateLightbox posts (lightbox page) direction;
     bodyOverflow := bodyOverflow page |}.

Definition pageStep (posts : list BlogPostData) (page : Page) (g : Gesture)
    : Page :=
  match g with
  | ClickImage index imgIndex =>
      if bool_decide ((index, imgIndex) ∈ imageCallSites posts)
      then openLightboxOn index imgIndex
      else page
  | PressKey key =>
      if isOpen (lightbox page) then
        match key with
        | Escape => closeLightboxOn
        | ArrowLeft => navigateOn posts page prev
        | ArrowRight => navigateOn posts page next
        | OtherKey => page
        end
      else page
  | ClickPrev =>
      if arrowsRendered posts (lightbox page)
      then navigateOn posts page prev else page
  | ClickNext =>
      if arrowsRendered posts (lightbox page)
      then navigateOn posts page next else page
  | ClickClose =>
      if modalRendered posts (lightbox page) then closeLightboxOn else page
  end.

(** A feed of one post with one image. *)
Definition single_image_posts : list BlogPostData :=
  [ {| title := "Summit";
       images := Some [ {| src := "s.jpg"; alt := "s" |} ] |} ].

Definition pageAfter (posts : list BlogPostData) (gs : list Gesture) : Page :=
  fold_left (pageStep posts) gs initialPage.

(** [images![currentImageIndex]]; [None] is [undefined]. *)
Definition imageAt (imgs : list Image) (i : jsint) : option Image :=
  match i with
  | Int z => if (0 <=? z)%Z then imgs !! Z.to_nat z else None
  | INaN => None
  end.

(** The image the modal reads [.src] and [.alt] of: [None] when the modal
    is not rendered, [Some None] when it is rendered and the image is
    [undefined], which throws. *)
Definition modalImage (posts : list BlogPostData) (lb : LightboxState)
    : option (option Image) :=
  if isOpen lb then
    match posts !! postIndex lb with
    | Some post =>
        match images post with
        | Some imgs => Some (imageAt imgs (currentImageIndex lb))
        | None => None
        end
    | None => None
    end
  else None.

End Modal.

(* ===================================================================== *)
(** ** Share links and deep links                                         *)
(* ===================================================================== *)

Module DeepLink.
Import Slug.

Section Refs.
Variable toLowerCase : jsstring -> jsstring.

(** [ref={(el) => { postRefs.current[slug] = el; }}], run for the articles
    in document order; an article is named by its index in [posts]. The
    map holds the entries these assignments create. *)
Definition attachRefs (titles : list jsstring) : gmap jsstring nat :=
  fold_left
    (fun refs it => <[createSlug toLowerCase (snd it) := fst it]> refs)
    (imap pair titles) ∅.

(** The fragment of the URL [sharePost] builds,
    [`${origin}${pathname}#${slug}`], as [window.location.hash.slice(1)]
    reads it back. *)
Definition shareHash (title : jsstring) : jsstring :=
  createSlug toLowerCase title.

(** The article the deep-link effect scrolls to: none without posts, none
    for an empty hash, else the entry of [postRefs.current] under the
    hash. *)
Definition deepLinkTarget (titles : list jsstring) (hash : jsstring)
    : option nat :=
  match titles with
  | [] => None
  | _ =>
      match hash with
      | [] => None
      | _ => attachRefs titles !! hash
      end
  end.
End Refs.

(** [Hello World], [hello, world!] and [!!!]. *)
Definition sampleTitles : list jsstring :=
  [ [72; 101; 108; 108; 111; 32; 87; 111; 114; 108; 100];
    [104; 101; 108; 108; 111; 44; 32; 119; 111; 114; 108; 100; 33];
    [33; 33; 33] ]%N.

End DeepLink.

(* ===================================================================== *)
(** * Properties                                                          *)
(* ===================================================================== *)

(** ** Numbers *)

Section NumberFacts.
Import JS.

Lemma Qltb_inject_Z (a b : Z) : Qltb (inject_Z a) (inject_Z b) = (a <? b)%Z.
Proof.
  unfold Qltb, Qcompare, inject_Z; simpl.
  rewrite !Z.mul_1_r. unfold Z.ltb. reflexivity.
Qed.

Lemma Qltb_true (a b : Q) : Qltb a b = true <-> (a < b)%Q.
Proof.
  unfold Qltb. rewrite Qlt_alt.
  destruct (a ?= b)%Q; split; congruence.
Qed.

Lemma Qltb_false (a b : Q) : Qltb a b = false <-> (b <= a)%Q.
Proof.
  rewrite <- not_true_iff_false, Qltb_true. split.
  - apply Qnot_lt_le.
  - apply Qle_not_lt.
Qed.

Lemma Math_max_of_Z (a b : Z) :
  Math_max (of_Z a) (of_Z b) = of_Z (Z.max a b).
Proof.
  unfold Math_max, of_Z. rewrite Qltb_inject_Z.
  destruct (Z.ltb_spec a b).
  - rewrite Z.max_r by lia. reflexivity.
  - rewrite Z.max_l by lia. reflexivity.
Qed.

Lemma Qeq_bool_false_pos (q : Q) : (0 < q)%Q -> Qeq_bool q 0 = false.
Proof.
  intros Hq. apply not_true_iff_false. intros H.
  apply Qeq_bool_eq in H. rewrite H in Hq. revert Hq. apply Qlt_irrefl.
Qed.

Lemma div_Fin_pos (x y : Q) : (0 < y)%Q -> div (Fin x) (Fin y) = Fin (x / y).
Proof. intros Hy. simpl. rewrite (Qeq_bool_false_pos y Hy). reflexivity. Qed.

(** The clamp [Math.min(Math.max(p, 0), 1)]: it lets [NaN] through and
    brings everything else into the unit interval. *)
Lemma clamp_cases (p : number) :
  (p = NaN /\ Math_min (Math_max p (of_Z 0)) (of_Z 1) = NaN) \/
  (p <> NaN /\ in_unit_interval (Math_min (Math_max p (of_Z 0)) (of_Z 1))).
Proof.
  destruct p as [| | |q].
  - left. split; reflexivity.
  - right. split; [discriminate|]. exists 1%Q. simpl.
    repeat split; [apply Qle_bool_imp_le | apply Qle_refl]; reflexivity.
  - right. split; [discriminate|]. exists 0%Q. simpl.
    repeat split; [apply Qle_refl | apply Qle_bool_imp_le]; reflexivity.
  - right. split; [discriminate|]. unfold Math_max, of_Z.
    destruct (Qltb q (inject_Z 0)) eqn:Hlo.
    + exists 0%Q. simpl. repeat split;
        [apply Qle_refl | apply Qle_bool_imp_le; reflexivity].
    + apply Qltb_false in Hlo. unfold Math_min.
      destruct (Qltb (inject_Z 1) q) eqn:Hhi.
      * exists 1%Q. repeat split;
          [apply Qle_bool_imp_le; reflexivity | apply Qle_refl].
      * apply Qltb_false in Hhi. exists q. repeat split; assumption.
Qed.

End NumberFacts.

(** ** Masonry row spans *)

Section MasonryFacts.
Import JS Masonry.

Lemma metric_or_pos (parsed : number) (default : Z) :
  parsed_length parsed -> (0 < default)%Z ->
  or_else parsed (of_Z default) = Fin (metric_or parsed default) /\
  (0 < metric_or parsed default)%Q.
Proof.
  intros [-> | (q & -> & Hq)] Hd.
  - split; [reflexivity|]. simpl.
    change 0%Q with (inject_Z 0). rewrite <- Zlt_Qlt. exact Hd.
  - unfold or_else, metric_or, truthy.
    destruct (Qeq_bool q 0) eqn:Hz; simpl.
    + split; [reflexivity|].
      change 0%Q with (inject_Z 0). rewrite <- Zlt_Qlt. exact Hd.
    + split; [reflexivity|].
      apply Qle_lt_or_eq in Hq. destruct Hq as [Hq | Hq]; [exact Hq|].
      apply Qeq_sym, Qeq_eq_bool in Hq. congruence.
Qed.

Lemma spanOf_finite (h rh rg : Q) :
  (0 < rh + rg)%Q ->
  spanOf (Fin h) {| rowHeight := Fin rh; rowGap := Fin rg |}
  = of_Z (Z.max 1 (Qceiling ((h + rg) / (rh + rg)))).
Proof.
  intros Hpos. unfold spanOf. cbn [rowHeight rowGap add].
  rewrite div_Fin_pos by exact Hpos.
  cbn [Math_ceil]. apply Math_max_of_Z.
Qed.

(** C2.  For an item whose content has a rendered height [h] and a grid
    whose computed track size and gap parse to [NaN] or to a length,
    [computeSpan] measures the [img] child (the item itself when it has
    none), takes the row height and the gap from the style it is handed at
    that call, 8 and 16 standing in for a value that is [NaN] or zero, and
    returns [max(1, ceil((h + rowGap) / (rowHeight + rowGap)))], a whole
    number that is at least 1. *)
Theorem computeSpan_formula (item : ItemBox) (grid : GridStyle) (h : Q) :
  contentHeight item = Fin h ->
  (0 <= h)%Q ->
  parsed_length (grid_auto_rows grid) ->
  parsed_length (row_gap grid) ->
  let rh := metric_or (grid_auto_rows grid) 8 in
  let rg := metric_or (row_gap grid) 16 in
  contentHeight item
    = match img_height item with Some m => m | None => own_height item end /\
  getRowMetrics grid = {| rowHeight := Fin rh; rowGap := Fin rg |} /\
  computeSpan item grid = of_Z (Z.max 1 (Qceiling ((h + rg) / (rh + rg)))) /\
  integer_at_least 1 (computeSpan item grid).
Proof.
  intros Hh Hh0 Hrows Hgap rh rg.
  destruct (metric_or_pos _ 8 Hrows) as [Erh Prh]; [lia|].
  destruct (metric_or_pos _ 16 Hgap) as [Erg Prg]; [lia|].
  assert (Hm : getRowMetrics grid = {| rowHeight := Fin rh; rowGap := Fin rg |}).
  { unfold getRowMetrics. rewrite Erh, Erg. reflexivity. }
  assert (Hsum : (0 < rh + rg)%Q).
  { subst rh rg. lra. }
  assert (Hspan : computeSpan item grid
                  = of_Z (Z.max 1 (Qceiling ((h + rg) / (rh + rg))))).
  { unfold computeSpan. rewrite Hm, Hh. apply spanOf_finite, Hsum. }
  repeat split; try assumption.
  rewrite Hspan. eexists. split; [reflexivity|]. lia.
Qed.

Lemma computeSpan_formula_witness :
  computeSpan sampleItem sampleGrid = of_Z 9 /\
  integer_at_least 1 (computeSpan sampleItem sampleGrid).
Proof.
  destruct (computeSpan_formula sampleItem sampleGrid 200) as (_ & _ & Hs & Hi).
  - reflexivity.
  - apply Qle_bool_imp_le. reflexivity.
  - left. reflexivity.
  - right. exists 0%Q. split; [reflexivity | apply Qle_refl].
  - split; [exact Hs | exact Hi].
Defined.

(** The spans of the four-image grid as the specification lists them are
    not the ones [computeSpan] assigns: the second item gets 18 rows. *)
Lemma listed_spans_differ :
  ~ Forall2 same
      (resizeGrid defaultStyle (boxesOfHeights [200; 400; 150; 600]%Z))
      [of_Z 9; of_Z 17; of_Z 7; of_Z 26].
Proof.
  intros H. inversion H as [|? ? ? ? _ H1]; subst.
  inversion H1 as [|? ? ? ? Hsame _]; subst.
  vm_compute in Hsame. discriminate Hsame.
Qed.

(** C4 (amended).  Under [rowHeight = 8] and [rowGap = 16], items with
    measured heights 200, 400, 150 and 600 get the spans 9, 18, 7 and 26:
    the second is [ceil(416 / 24) = 18]. *)
Theorem spans_of_scenario :
  resizeGrid defaultStyle (boxesOfHeights [200; 400; 150; 600]%Z)
  = [of_Z 9; of_Z 18; of_Z 7; of_Z 26].
Proof. vm_compute. reflexivity. Qed.

End MasonryFacts.

(** ** Scroll indicator *)

Section ProgressFacts.
Import JS Progress.

(** Whatever the window reports, the value handed to [setScrollProgress]
    is in the unit interval unless the quotient itself is [NaN]. *)
Lemma handleScroll_cases (w : Viewport) :
  let progress := div (scrollY w) (sub (scrollHeight w) (innerHeight w)) in
  (progress = NaN /\ handleScroll w = NaN) \/
  (progress <> NaN /\ in_unit_interval (handleScroll w)).
Proof. intros progress. unfold handleScroll. apply clamp_cases. Qed.

(** X4.  When the document overflows the viewport, the progress is in [0, 1]
    for every finite scroll offset, negative and overshooting ones
    included. *)
Lemma handleScroll_bounds_overflow (sy sh ih : Q) :
  ~ (sh - ih == 0)%Q ->
  in_unit_interval
    (handleScroll {| innerHeight := Fin ih; scrollHeight := Fin sh;
                     scrollY := Fin sy |}).
Proof.
  intros Hne.
  destruct (handleScroll_cases {| innerHeight := Fin ih; scrollHeight := Fin sh;
                                  scrollY := Fin sy |}) as [[Hnan _] | [_ H]];
    [|exact H].
  exfalso. cbn in Hnan.
  destruct (Qeq_bool (sh + - ih) 0) eqn:Hz; [|discriminate].
  apply Qeq_bool_eq in Hz. apply Hne. exact Hz.
Qed.

(** C5.  On a page exactly as tall as its viewport and not scrolled,
    [handleScroll] divides zero by zero and the clamp lets the [NaN]
    through: the progress it sets is neither 0 nor in [0, 1]. *)
Theorem handleScroll_zero_overflow :
  handleScroll short_page = NaN /\
  ~ in_unit_interval (handleScroll short_page) /\
  ~ same (handleScroll short_page) (of_Z 0).
Proof.
  assert (H : handleScroll short_page = NaN) by (vm_compute; reflexivity).
  rewrite H. split; [reflexivity|]. split.
  - intros (q & Hq & _). discriminate Hq.
  - intros Hs. exact Hs.
Qed.

End ProgressFacts.

(** ** Lightbox *)

Section LightboxFacts.
Import Lightbox.
Local Open Scope Z_scope.

Lemma elem_of_imageCallSites (posts : list BlogPostData) (index imgIndex : nat) :
  (index, imgIndex) ∈ imageCallSites posts <->
  exists post imgs,
    posts !! index = Some post /\ images post = Some imgs /\
    (imgIndex < length imgs)%nat.
Proof.
  unfold imageCallSites. rewrite list_elem_of_In, in_concat. split.
  - intros (l & Hl & Hin).
    apply list_elem_of_In, elem_of_lookup_imap in Hl.
    destruct Hl as (i & post & -> & Hpost).
    destruct (images post) as [imgs|] eqn:Himgs; [|inversion Hin].
    destruct (0 <? length imgs)%nat; [|inversion Hin].
    apply list_elem_of_In, elem_of_lookup_imap in Hin.
    destruct Hin as (j & img & Heq & Himg). inversion Heq; subst.
    exists post, imgs. split; [assumption|]. split; [assumption|].
    eapply lookup_lt_Some, Himg.
  - intros (post & imgs & Hpost & Himgs & Hlt).
    destruct (lookup_lt_is_Some_2 imgs imgIndex Hlt) as [img Himg].
    eexists. split.
    + apply list_elem_of_In. apply (elem_of_lookup_imap_2 _ _ _ _ Hpost).
    + cbn beta. rewrite Himgs.
      replace (0 <? length imgs)%nat with true
        by (symmetry; apply Nat.ltb_lt; lia).
      apply list_elem_of_In.
      apply (elem_of_lookup_imap_2 (fun imgIndex _ => (index, imgIndex)) _ _ _ Himg).
Qed.

Lemma navigate_index (posts : list BlogPostData) (lb : LightboxState)
    (post : BlogPostData) (imgs : list Image) (d : Direction) :
  posts !! postIndex lb = Some post ->
  images post = Some imgs ->
  navigateLightbox posts lb d =
  {| isOpen := isOpen lb;
     currentImageIndex :=
       match d with
       | next => irem (iadd (currentImageIndex lb) (Int 1))
                      (Int (Z.of_nat (length imgs)))
       | prev => irem (iadd (isub (currentImageIndex lb) (Int 1))
                            (Int (Z.of_nat (length imgs))))
                      (Int (Z.of_nat (length imgs)))
       end;
     postIndex := postIndex lb |}.
Proof. intros Hp Hi. unfold navigateLightbox. rewrite Hp, Hi. reflexivity. Qed.

Lemma irem_nonneg (x n : Z) :
  (0 <= x)%Z -> (0 < n)%Z -> irem (Int x) (Int n) = Int (x mod n).
Proof.
  intros Hx Hn. unfold irem.
  destruct (Z.eqb_spec n 0); [lia|].
  rewrite Z.rem_mod_nonneg by lia. reflexivity.
Qed.

Lemma navigate_next (posts : list BlogPostData) (lb : LightboxState)
    (post : BlogPostData) (imgs : list Image) (i : Z) :
  posts !! postIndex lb = Some post ->
  images post = Some imgs ->
  currentImageIndex lb = Int i ->
  (0 <= i < Z.of_nat (length imgs))%Z ->
  navigateLightbox posts lb next =
  {| isOpen := isOpen lb;
     currentImageIndex := Int ((i + 1) mod Z.of_nat (length imgs));
     postIndex := postIndex lb |}.
Proof.
  intros Hp Hi Hc Hr. rewrite (navigate_index _ _ _ _ next Hp Hi), Hc.
  cbn [iadd]. rewrite irem_nonneg by lia. reflexivity.
Qed.

Lemma navigate_prev (posts : list BlogPostData) (lb : LightboxState)
    (post : BlogPostData) (imgs : list Image) (i : Z) :
  posts !! postIndex lb = Some post ->
  images post = Some imgs ->
  currentImageIndex lb = Int i ->
  (0 <= i < Z.of_nat (length imgs))%Z ->
  navigateLightbox posts lb prev =
  {| isOpen := isOpen lb;
     currentImageIndex := Int ((i - 1 + Z.of_nat (length imgs))
                               mod Z.of_nat (length imgs));
     postIndex := postIndex lb |}.
Proof.
  intros Hp Hi Hc Hr. rewrite (navigate_index _ _ _ _ prev Hp Hi), Hc.
  cbn [iadd isub]. rewrite irem_nonneg by lia. reflexivity.
Qed.

Lemma nextTimes_index (posts : list BlogPostData) (lb : LightboxState)
    (post : BlogPostData) (imgs : list Image) (i : Z) (k : nat) :
  posts !! postIndex lb = Some post ->
  images post = Some imgs ->
  currentImageIndex lb = Int i ->
  (0 <= i < Z.of_nat (length imgs))%Z ->
  nextTimes posts k lb =
  {| isOpen := isOpen lb;
     currentImageIndex := Int ((i + Z.of_nat k) mod Z.of_nat (length imgs));
     postIndex := postIndex lb |}.
Proof.
  intros Hp Hi Hc Hr. induction k as [|k IH].
  - cbn [nextTimes Nat.iter]. rewrite Z.add_0_r, Z.mod_small by lia.
    destruct lb; cbn in *. congruence.
  - change (nextTimes posts (S k) lb)
      with (navigateLightbox posts (nextTimes posts k lb) next).
    rewrite IH. erewrite navigate_next; cbn; eauto.
    + f_equal. f_equal.
      rewrite Zplus_mod_idemp_l. f_equal. lia.
    + apply Z.mod_pos_bound. lia.
Qed.

Lemma mod_next_prev (i n : Z) :
  (0 <= i < n)%Z -> (((i + 1) mod n - 1 + n) mod n = i)%Z.
Proof.
  intros Hr. destruct (Z.eq_dec (i + 1) n) as [E | E].
  - rewrite E, Z_mod_same_full. rewrite Z.mod_small by lia. lia.
  - rewrite (Z.mod_small (i + 1)%Z) by lia.
    replace (i + 1 - 1 + n)%Z with (i + 1 * n)%Z by lia.
    rewrite Z_mod_plus_full. apply Z.mod_small. lia.
Qed.

Lemma mod_prev_next (i n : Z) :
  (0 <= i < n)%Z -> (((i - 1 + n) mod n + 1) mod n = i)%Z.
Proof.
  intros Hr. destruct (Z.eq_dec i 0) as [E | E].
  - subst i. rewrite (Z.mod_small (0 - 1 + n)%Z) by lia.
    replace (0 - 1 + n + 1)%Z with n by lia. apply Z_mod_same_full.
  - replace (i - 1 + n)%Z with (i - 1 + 1 * n)%Z by lia.
    rewrite Z_mod_plus_full, (Z.mod_small (i - 1)%Z) by lia.
    replace (i - 1 + 1)%Z with i by lia. apply Z.mod_small. lia.
Qed.

Lemma showsImage_navigate (posts : list BlogPostData) (lb : LightboxState)
    (d : Direction) :
  showsImage posts lb -> showsImage posts (navigateLightbox posts lb d).
Proof.
  intros (post & imgs & i & Hp & Hi & Hc & Hr).
  exists post, imgs. destruct d.
  - exists ((i - 1 + Z.of_nat (length imgs)) mod Z.of_nat (length imgs))%Z.
    rewrite (navigate_prev _ _ _ _ _ Hp Hi Hc Hr). cbn.
    repeat split; try assumption; apply Z.mod_pos_bound; lia.
  - exists ((i + 1) mod Z.of_nat (length imgs))%Z.
    rewrite (navigate_next _ _ _ _ _ Hp Hi Hc Hr). cbn.
    repeat split; try assumption; apply Z.mod_pos_bound; lia.
Qed.

Lemma isOpen_navigate (posts : list BlogPostData) (lb : LightboxState)
    (d : Direction) :
  isOpen (navigateLightbox posts lb d) = isOpen lb.
Proof.
  unfold navigateLightbox.
  destruct (posts !! postIndex lb) as [post|]; [|reflexivity].
  destruct (images post); reflexivity.
Qed.

(** Whatever the viewer does, an open lightbox shows an existing image of
    an existing post. *)
Lemma open_lightbox_shows_image (posts : list BlogPostData) (gs : list Gesture) :
  isOpen (lightboxAfter posts gs) = true -> showsImage posts (lightboxAfter posts gs).
Proof.
  unfold lightboxAfter.
  assert (Hinit : isOpen initialLightbox = true -> showsImage posts initialLightbox)
    by discriminate.
  revert Hinit. generalize initialLightbox as lb.
  induction gs as [|g gs IH]; intros lb Hlb; [exact Hlb|].
  cbn [fold_left]. apply IH. intros Hopen.
  assert (Hnav : forall d, isOpen (navigateLightbox posts lb d) = true ->
                           showsImage posts (navigateLightbox posts lb d)).
  { intros d Hd. rewrite isOpen_navigate in Hd. auto using showsImage_navigate. }
  destruct g as [index imgIndex | key | | | ]; cbn [lightboxStep] in *.
  - unfold clickImage in *. case_bool_decide as Hsite; [|auto].
    apply elem_of_imageCallSites in Hsite.
    destruct Hsite as (post & imgs & Hp & Hi & Hlt).
    exists post, imgs, (Z.of_nat imgIndex). cbn. repeat split; auto; lia.
  - unfold handleKeyDown in *. destruct (isOpen lb) eqn:Ho; [|congruence].
    destruct key; auto. discriminate Hopen.
  - destruct (arrowsRendered posts lb); auto.
  - destruct (arrowsRendered posts lb); auto.
  - destruct (modalRendered posts lb); [discriminate | auto].
Qed.

(** C3.  In a lightbox on a post with [n >= 1] images, at image [i]:
    [next] goes to [(i + 1) mod n] and [prev] to [(i - 1 + n) mod n], both
    of them images of the post; [next] pressed [n] times comes back to
    [i]; [prev] undoes [next] and [next] undoes [prev]; from the last image
    [next] wraps to the first and from the first [prev] wraps to the
    last. *)
Theorem navigate_wrap_law (posts : list BlogPostData) (lb : LightboxState)
    (post : BlogPostData) (imgs : list Image) (i : Z) :
  posts !! postIndex lb = Some post ->
  images post = Some imgs ->
  (1 <= length imgs)%nat ->
  currentImageIndex lb = Int i ->
  (0 <= i < Z.of_nat (length imgs))%Z ->
  let n := Z.of_nat (length imgs) in
  let afterNext := navigateLightbox posts lb next in
  let afterPrev := navigateLightbox posts lb prev in
  currentImageIndex afterNext = Int ((i + 1) mod n) /\
  currentImageIndex afterPrev = Int ((i - 1 + n) mod n) /\
  showsImage posts afterNext /\
  showsImage posts afterPrev /\
  nextTimes posts (length imgs) lb = lb /\
  navigateLightbox posts afterNext prev = lb /\
  navigateLightbox posts afterPrev next = lb /\
  (i = (n - 1)%Z -> currentImageIndex afterNext = Int 0) /\
  (i = 0%Z -> currentImageIndex afterPrev = Int (n - 1)).
Proof.
  intros Hp Hi Hn Hc Hr n afterNext afterPrev.
  assert (Hshow : showsImage posts lb) by (exists post, imgs, i; auto).
  assert (Enext := navigate_next _ _ _ _ _ Hp Hi Hc Hr).
  assert (Eprev := navigate_prev _ _ _ _ _ Hp Hi Hc Hr).
  fold n in Enext, Eprev. fold afterNext in Enext. fold afterPrev in Eprev.
  assert (Hjn : (0 <= (i + 1) mod n < n)%Z) by (apply Z.mod_pos_bound; lia).
  assert (Hjp : (0 <= (i - 1 + n) mod n < n)%Z) by (apply Z.mod_pos_bound; lia).
  split; [rewrite Enext; reflexivity|].
  split; [rewrite Eprev; reflexivity|].
  split; [apply showsImage_navigate, Hshow|].
  split; [apply showsImage_navigate, Hshow|].
  split.
  { rewrite (nextTimes_index _ _ _ _ _ (length imgs) Hp Hi Hc Hr).
    replace (i + Z.of_nat (length imgs))%Z with (i + 1 * n)%Z by (subst n; lia).
    fold n. rewrite Z_mod_plus_full, Z.mod_small by lia.
    destruct lb; cbn in *. congruence. }
  split.
  { rewrite (navigate_prev posts afterNext post imgs ((i + 1) mod n));
      rewrite ?Enext; cbn; auto.
    fold n. rewrite mod_next_prev by lia. destruct lb; cbn in *. congruence. }
  split.
  { rewrite (navigate_next posts afterPrev post imgs ((i - 1 + n) mod n));
      rewrite ?Eprev; cbn; auto.
    fold n. rewrite mod_prev_next by lia. destruct lb; cbn in *. congruence. }
  split.
  - intros ->. rewrite Enext. cbn. f_equal.
    replace (n - 1 + 1)%Z with n by lia. apply Z_mod_same_full.
  - intros ->. rewrite Eprev. cbn. f_equal.
    replace (0 - 1 + n)%Z with (n - 1)%Z by lia. apply Z.mod_small. lia.
Qed.

Lemma navigate_wrap_law_witness :
  currentImageIndex (navigateLightbox sample_posts (openLightbox 1 2) next) = Int 0 /\
  currentImageIndex (navigateLightbox sample_posts (openLightbox 1 0) prev) = Int 2 /\
  nextTimes sample_posts 3 (openLightbox 1 2) = openLightbox 1 2.
Proof.
  destruct (navigate_wrap_law sample_posts (openLightbox 1 2) three_image_post
              [ {| src := "a.jpg"; alt := "a" |};
                {| src := "b.jpg"; alt := "b" |};
                {| src := "c.jpg"; alt := "c" |} ] 2)
    as (_ & _ & _ & _ & Hcycle & _ & _ & Hlast & _);
    [reflexivity | reflexivity | simpl; lia | reflexivity | simpl; lia |].
  destruct (navigate_wrap_law sample_posts (openLightbox 1 0) three_image_post
              [ {| src := "a.jpg"; alt := "a" |};
                {| src := "b.jpg"; alt := "b" |};
                {| src := "c.jpg"; alt := "c" |} ] 0)
    as (_ & _ & _ & _ & _ & _ & _ & _ & Hfirst);
    [reflexivity | reflexivity | simpl; lia | reflexivity | simpl; lia |].
  split; [apply Hlast; reflexivity|].
  split; [apply Hfirst; reflexivity | exact Hcycle].
Defined.

(** C8.  For a post without images (the property is absent or the array is
    empty) the page renders no image that calls [openLightbox]: a click
    aimed at such an image changes nothing, a closed lightbox stays
    closed, and no sequence of gestures ever has the lightbox open on that
    post. *)
Theorem open_without_images_rejected (posts : list BlogPostData)
    (lb : LightboxState) (index imgIndex : nat) (post : BlogPostData) :
  posts !! index = Some post ->
  noImages post ->
  ((index, imgIndex) ∉ imageCallSites posts) /\
  clickImage posts lb index imgIndex = lb /\
  (isOpen lb = false -> isOpen (clickImage posts lb index imgIndex) = false) /\
  (forall gs : list Gesture,
     isOpen (lightboxAfter posts gs) = true ->
     postIndex (lightboxAfter posts gs) <> index).
Proof.
  intros Hp Hno.
  assert (Hsite : forall j, (index, j) ∉ imageCallSites posts).
  { intros j Hin. apply elem_of_imageCallSites in Hin.
    destruct Hin as (post' & imgs & Hp' & Hi & Hlt).
    rewrite Hp in Hp'. inversion Hp'; subst post'.
    destruct Hno as [Hno | Hno]; rewrite Hno in Hi; inversion Hi; subst.
    cbn in Hlt. lia. }
  assert (Hclick : clickImage posts lb index imgIndex = lb).
  { unfold clickImage. case_bool_decide as Hin; [|reflexivity].
    exfalso. exact (Hsite _ Hin). }
  split; [apply Hsite|]. split; [exact Hclick|]. split.
  - rewrite Hclick. auto.
  - intros gs Hopen Hidx.
    destruct (open_lightbox_shows_image posts gs Hopen)
      as (post' & imgs & i & Hp' & Hi & _ & Hr).
    rewrite Hidx, Hp in Hp'. inversion Hp'; subst post'.
    destruct Hno as [Hno | Hno]; rewrite Hno in Hi; inversion Hi; subst.
    cbn in Hr. lia.
Qed.

Lemma open_without_images_rejected_witness :
  clickImage sample_posts initialLightbox 0 0 = initialLightbox /\
  isOpen (clickImage sample_posts initialLightbox 0 0) = false.
Proof.
  destruct (open_without_images_rejected sample_posts initialLightbox 0 0 text_post)
    as (_ & Hsame & Hclosed & _).
  - reflexivity.
  - left. reflexivity.
  - split; [exact Hsame | apply Hclosed; reflexivity].
Defined.

End LightboxFacts.

(** ** Slugs *)

Section SlugFacts.
Import Slug.

Lemma alnum_not_hyphen (c : N) : is_lower_alnum c = true -> (c =? hyphen)%N = false.
Proof.
  unfold is_lower_alnum, hyphen. intros H. apply N.eqb_neq. intros ->.
  vm_compute in H. discriminate H.
Qed.

Lemma hasDoubleHyphen_cons (c : N) (s : jsstring) :
  hasDoubleHyphen (c :: s)
  = ((c =? hyphen)%N && startsWithHyphen s) || hasDoubleHyphen s.
Proof. destruct s; cbn; [rewrite andb_false_r|]; reflexivity. Qed.

Lemma endsWithHyphen_cons (c : N) (s : jsstring) :
  endsWithHyphen (c :: s)
  = match s with [] => (c =? hyphen)%N | _ => endsWithHyphen s end.
Proof. destruct s; reflexivity. Qed.

Lemma replaceRuns_chars (inRun : bool) (s : jsstring) :
  forallb slug_char (replaceRuns inRun s) = true.
Proof.
  revert inRun. induction s as [|c rest IH]; intros inRun; [reflexivity|].
  cbn [replaceRuns]. destruct (is_lower_alnum c) eqn:Hc.
  - cbn [forallb]. unfold slug_char at 1. rewrite Hc, IH. reflexivity.
  - destruct inRun; [apply IH|]. cbn [forallb]. rewrite IH. reflexivity.
Qed.

Lemma replaceRuns_hyphens (inRun : bool) (s : jsstring) :
  hasDoubleHyphen (replaceRuns inRun s) = false /\
  (inRun = true -> startsWithHyphen (replaceRuns inRun s) = false).
Proof.
  revert inRun. induction s as [|c rest IH]; intros inRun; [split; reflexivity|].
  cbn [replaceRuns]. destruct (is_lower_alnum c) eqn:Hc.
  - rewrite hasDoubleHyphen_cons. cbn [startsWithHyphen].
    rewrite (alnum_not_hyphen c Hc). destruct (IH false) as [-> _].
    split; reflexivity.
  - destruct inRun.
    + apply IH.
    + destruct (IH true) as [Hd Hs]. rewrite hasDoubleHyphen_cons, Hd, Hs by reflexivity.
      split; [reflexivity | discriminate].
Qed.

Lemma stripLeading_shape (s : jsstring) :
  forallb slug_char s = true ->
  hasDoubleHyphen s = false ->
  forallb slug_char (stripLeading s) = true /\
  hasDoubleHyphen (stripLeading s) = false /\
  startsWithHyphen (stripLeading s) = false.
Proof.
  destruct s as [|c rest]; [intros; repeat split; reflexivity|].
  intros Hchars Hdouble. cbn [forallb] in Hchars.
  apply andb_true_iff in Hchars as [Hc Hrest].
  rewrite hasDoubleHyphen_cons in Hdouble.
  apply orb_false_iff in Hdouble as [Hpair Hd].
  cbn [stripLeading]. destruct (c =? hyphen)%N eqn:E.
  - repeat split; assumption.
  - repeat split.
    + cbn [forallb]. rewrite Hc, Hrest. reflexivity.
    + rewrite hasDoubleHyphen_cons, E, Hd. reflexivity.
    + cbn. exact E.
Qed.

Lemma stripTrailing_start (s : jsstring) :
  startsWithHyphen (stripTrailing s) = true -> startsWithHyphen s = true.
Proof.
  destruct s as [|c [|d rest]]; cbn; [auto | | auto].
  destruct (c =? hyphen)%N eqn:E; cbn; [auto | congruence].
Qed.

Lemma stripTrailing_nil (s : jsstring) :
  stripTrailing s = [] -> s = [] \/ s = [hyphen].
Proof.
  destruct s as [|c [|d rest]]; cbn; [auto | | discriminate].
  destruct (N.eqb_spec c hyphen); [subst; auto | discriminate].
Qed.

Lemma stripTrailing_shape (s : jsstring) :
  forallb slug_char s = true ->
  hasDoubleHyphen s = false ->
  forallb slug_char (stripTrailing s) = true /\
  hasDoubleHyphen (stripTrailing s) = false /\
  endsWithHyphen (stripTrailing s) = false.
Proof.
  induction s as [|c rest IH]; [intros; repeat split; reflexivity|].
  intros Hchars Hdouble. cbn [forallb] in Hchars.
  apply andb_true_iff in Hchars as [Hc Hrest].
  rewrite hasDoubleHyphen_cons in Hdouble.
  apply orb_false_iff in Hdouble as [Hpair Hd].
  destruct (IH Hrest Hd) as (Hc1 & Hd1 & He1). clear IH.
  destruct rest as [|d rest'].
  - cbn [stripTrailing]. destruct (c =? hyphen)%N eqn:E.
    + repeat split; reflexivity.
    + cbn [forallb endsWithHyphen hasDoubleHyphen]. rewrite Hc, E.
      repeat split; reflexivity.
  - change (stripTrailing (c :: d :: rest')) with (c :: stripTrailing (d :: rest')).
    cbn [forallb]. rewrite Hc, Hc1.
    rewrite hasDoubleHyphen_cons, endsWithHyphen_cons, Hd1.
    split; [reflexivity|]. split.
    + rewrite orb_false_r.
      destruct (startsWithHyphen (stripTrailing (d :: rest'))) eqn:Hs;
        [|apply andb_false_r].
      apply stripTrailing_start in Hs. rewrite Hs in Hpair. exact Hpair.
    + destruct (stripTrailing (d :: rest')) eqn:Ex; [|exact He1].
      apply stripTrailing_nil in Ex as [Ex | Ex]; inversion Ex; subst.
      rewrite andb_true_r in Hpair. exact Hpair.
Qed.

Lemma stripTrailing_keeps_start (s : jsstring) :
  startsWithHyphen s = false -> startsWithHyphen (stripTrailing s) = false.
Proof.
  intros Hs. apply not_true_iff_false. intros H.
  apply stripTrailing_start in H. congruence.
Qed.

Lemma replaceRuns_no_alnum (s : jsstring) :
  existsb is_lower_alnum s = false ->
  replaceRuns true s = [] /\
  (replaceRuns false s = [] \/ replaceRuns false s = [hyphen]).
Proof.
  induction s as [|c rest IH]; [intros; split; [|left]; reflexivity|].
  cbn [existsb]. intros H. apply orb_false_iff in H as [Hc Hrest].
  destruct (IH Hrest) as [Htrue _]. cbn [replaceRuns]. rewrite Hc, Htrue.
  split; [reflexivity | right; reflexivity].
Qed.

(** C10.  Whatever [toLowerCase] does to the title, the slug consists of
    lowercase ASCII letters, digits and hyphens, neither starts nor ends
    with a hyphen and has no two hyphens in a row; it is empty when the
    lowered title has no letter or digit; and equal titles have equal
    slugs. *)
Theorem createSlug_shape (toLowerCase : jsstring -> jsstring)
    (title title' : jsstring) :
  title = title' ->
  wellFormedSlug (createSlug toLowerCase title) /\
  (existsb is_lower_alnum (toLowerCase title) = false ->
   createSlug toLowerCase title = []) /\
  createSlug toLowerCase title = createSlug toLowerCase title'.
Proof.
  intros <-. unfold createSlug, stripEdges. split; [|split; [|reflexivity]].
  - destruct (replaceRuns_hyphens false (toLowerCase title)) as [Hd _].
    destruct (stripLeading_shape _ (replaceRuns_chars false _) Hd)
      as (Hc1 & Hd1 & Hs1).
    destruct (stripTrailing_shape _ Hc1 Hd1) as (Hc2 & Hd2 & He2).
    repeat split; try assumption.
    apply stripTrailing_keeps_start, Hs1.
  - intros Hnone.
    destruct (replaceRuns_no_alnum _ Hnone) as [_ [-> | ->]]; reflexivity.
Qed.

Lemma createSlug_shape_witness :
  wellFormedSlug (createSlug asciiLower sampleTitle) /\
  createSlug asciiLower sampleTitle = createSlug asciiLower sampleTitle.
Proof.
  destruct (createSlug_shape asciiLower sampleTitle sampleTitle eq_refl)
    as (Hshape & _ & Hsame).
  split; [exact Hshape | exact Hsame].
Defined.

(** The title [-Hi!! W--] becomes [hi-w]. *)
Example createSlug_sample :
  createSlug asciiLower sampleTitle = [104; 105; 45; 119]%N.
Proof. reflexivity. Qed.

End SlugFacts.

(** ** Hover expansion *)

Section HoverFacts.
Import JS Masonry Hover.

(** Expose the record behind a chain of field updates. *)
Ltac unfold_updates :=
  unfold requestAnimationFrame, set_queue, set_refs, set_items, set_original,
    set_lock, resetGridScale, scrollTo, dispatchEvent;
  cbn.

Lemma recomputeSpan_tracks (env : Env) (target : ItemId) (st : State) :
  refTracksExpanded st -> refTracksExpanded (recomputeSpan env target st).
Proof.
  intros Hinv id n. unfold recomputeSpan. cbn.
  rewrite lookup_alter. case_decide as Heq; [subst id|apply Hinv].
  destruct (items st !! target) as [m|] eqn:Hm; cbn; [|discriminate].
  intros [= <-] Hexp. apply (Hinv target m Hm). exact Hexp.
Qed.

Lemma runTask_tracks (env : Env) (t : Task) (st : State) :
  refTracksExpanded st -> refTracksExpanded (runTask env t st).
Proof.
  intros Hinv. destruct t as [target | target | y start | target | target];
    cbn [runTask].
  - intros id n. cbn. apply (recomputeSpan_tracks env target st Hinv).
  - destruct (_ || _); [|exact Hinv]. exact Hinv.
  - destruct (_ || _); exact Hinv.
  - destruct (negb (isForwardScrollRef st)); [|exact Hinv].
    destruct (negb (hovered env target)); exact Hinv.
  - apply recomputeSpan_tracks, Hinv.
Qed.

(** What an accepted pointer-enter leaves in the DOM and in the ref. *)
Lemma onMouseEnter_effect (env : Env) (target : ItemId) (st : State) :
  isForwardScrollRef st = false ->
  items (onMouseEnter env target st)
  = alter expandNode target
      match expandedItemRef st with
      | Some prev =>
          if decide (prev = target) then items st
          else alter collapseNode prev (items st)
      | None => items st
      end /\
  expandedItemRef (onMouseEnter env target st) = Some target /\
  frameQueue (onMouseEnter env target st) = frameQueue st ++ [AfterExpand target] /\
  isForwardScrollRef (onMouseEnter env target st) = false.
Proof.
  intros Hlock. unfold onMouseEnter. rewrite Hlock.
  destruct (expandedItemRef st) as [prev|] eqn:Hprev; unfold_updates;
    rewrite ?Hprev.
  - destruct (decide (prev = target)); unfold_updates;
      (destruct (expandedGridRef st) as [g|]; unfold_updates;
       [destruct (decide (g = gridOf target)); unfold_updates|]);
      rewrite ?Hlock; repeat split; reflexivity.
  - destruct (expandedGridRef st) as [g|]; unfold_updates;
      [destruct (decide (g = gridOf target)); unfold_updates|];
      rewrite ?Hlock; repeat split; reflexivity.
Qed.

Lemma onMouseEnter_tracks (env : Env) (target : ItemId) (st : State) :
  refTracksExpanded st -> refTracksExpanded (onMouseEnter env target st).
Proof.
  intros Hinv. destruct (isForwardScrollRef st) eqn:Hlock.
  { unfold onMouseEnter. rewrite Hlock. exact Hinv. }
  destruct (onMouseEnter_effect env target st Hlock) as (Hitems & Href & _).
  intros id n. rewrite Hitems, Href, lookup_alter.
  case_decide as Hid; [subst; reflexivity|].
  intros Hn Hexp. exfalso.
  destruct (expandedItemRef st) as [prev|] eqn:Hprev.
  - destruct (decide (prev = target)) as [-> | Hne].
    + specialize (Hinv id n Hn Hexp). congruence.
    + rewrite lookup_alter in Hn. case_decide as Hid2.
      * subst id. destruct (items st !! prev); cbn in Hn; [|discriminate].
        injection Hn as <-. discriminate Hexp.
      * specialize (Hinv id n Hn Hexp). congruence.
  - specialize (Hinv id n Hn Hexp). congruence.
Qed.

(** What an immediate (not deferred) pointer-leave leaves in the DOM. *)
Lemma onMouseLeave_effect (target : ItemId) (related : RelatedTarget)
    (st : State) :
  isForwardScrollRef st && bool_decide (expandedItemRef st = Some target) = false ->
  items (onMouseLeave target related st) = alter collapseNode target (items st) /\
  expandedItemRef (onMouseLeave target related st)
  = match movingWithinGrid (gridOf target) related with
    | None => expandedItemRef st
    | Some _ =>
        if bool_decide (expandedItemRef st = Some target)
        then None else expandedItemRef st
    end /\
  isForwardScrollRef (onMouseLeave target related st) = isForwardScrollRef st.
Proof.
  intros Hnow. unfold onMouseLeave. rewrite Hnow. cbn.
  destruct (movingWithinGrid (gridOf target) related) as [within|]; cbn;
    [|repeat split; reflexivity].
  case_bool_decide as Href; cbn.
  - destruct (originalScrollYRef st); cbn;
      [destruct (negb within); cbn|];
      repeat split; reflexivity.
  - repeat split; reflexivity.
Qed.

Lemma onMouseLeave_tracks (target : ItemId) (related : RelatedTarget)
    (st : State) :
  refTracksExpanded st -> refTracksExpanded (onMouseLeave target related st).
Proof.
  intros Hinv.
  destruct (isForwardScrollRef st && bool_decide (expandedItemRef st = Some target))
    eqn:Hnow.
  { unfold onMouseLeave. rewrite Hnow. exact Hinv. }
  destruct (onMouseLeave_effect target related st Hnow) as (Hitems & Href & _).
  intros id n. rewrite Hitems, Href, lookup_alter.
  destruct (decide (target = id)) as [<- | Hid].
  - destruct (items st !! target); cbn; [|discriminate].
    intros [= <-]. discriminate.
  - intros Hn Hexp. specialize (Hinv id n Hn Hexp).
    destruct (movingWithinGrid (gridOf target) related); [|exact Hinv].
    case_bool_decide; congruence.
Qed.

Lemma step_tracks (st : State) (occ : Env * Event) :
  refTracksExpanded st -> refTracksExpanded (step st occ).
Proof.
  intros Hinv. destruct occ as [env [target | target related | ]]; cbn [step].
  - apply onMouseEnter_tracks, Hinv.
  - apply onMouseLeave_tracks, Hinv.
  - destruct (frameQueue st) as [|t rest]; [exact Hinv|].
    apply runTask_tracks. exact Hinv.
Qed.

Lemma run_tracks (trace : list (Env * Event)) (st : State) :
  refTracksExpanded st -> refTracksExpanded (run trace st).
Proof.
  revert st. induction trace as [|occ trace IH]; intros st Hinv; [exact Hinv|].
  cbn [run fold_left]. apply IH, step_tracks, Hinv.
Qed.

Lemma mount_tracks (dom : gmap ItemId bool) : refTracksExpanded (mount dom).
Proof.
  intros id n. cbn. rewrite lookup_fmap.
  destruct (dom !! id); cbn; [|discriminate].
  intros [= <-]. discriminate.
Qed.

Lemma tracked_at_most_one (st : State) :
  refTracksExpanded st -> size (expandedItems st) <= 1.
Proof.
  intros Hinv. unfold expandedItems.
  set (m := filter (fun kv => isExpanded (snd kv) = true) (items st)).
  assert (Hkey : forall id n, m !! id = Some n -> expandedItemRef st = Some id).
  { intros id n Hm. apply map_lookup_filter_Some in Hm as [Hn Hexp].
    apply (Hinv id n Hn Hexp). }
  destruct (expandedItemRef st) as [cur|] eqn:Hcur.
  - assert (Hrest : delete cur m = ∅).
    { apply map_empty. intros id. destruct (decide (cur = id)) as [-> | Hne].
      - apply lookup_delete_eq.
      - rewrite lookup_delete_ne by exact Hne.
        destruct (m !! id) as [n|] eqn:Hm; [|reflexivity].
        specialize (Hkey id n Hm). congruence. }
    assert (Hsize := map_size_delete cur m). rewrite Hrest, map_size_empty in Hsize.
    destruct (m !! cur); cbn in Hsize; unfold id in Hsize; lia.
  - assert (Hempty : m = ∅).
    { apply map_empty. intros id. destruct (m !! id) as [n|] eqn:Hm; [|reflexivity].
      specialize (Hkey id n Hm). discriminate. }
    rewrite Hempty, map_size_empty. lia.
Qed.

(** C1.  From the freshly rendered page, after any sequence of pointer
    enters, pointer leaves and frame callbacks, whatever the browser
    reports along the way, at most one gallery item over all grids is in
    the expanded state. *)
Theorem at_most_one_expanded (dom : gmap ItemId bool)
    (trace : list (Env * Event)) :
  size (expandedItems (run trace (mount dom))) <= 1.
Proof. apply tracked_at_most_one, run_tracks, mount_tracks. Qed.

(** *** The forward scroll lock *)

(** The inner frame callback of [onMouseEnter], when the item is not
    comfortably in view: it engages the lock, requests the scroll and
    starts polling with the clock reading of that frame. *)
Lemma afterSpan_engages_lock (env : Env) (target : ItemId) (st : State) :
  lt (rectTop env target) (of_Z 80)
  || gt (rectBottom env target) (sub (window_innerHeight env) (of_Z 80)) = true ->
  let y :=
    Math_max (of_Z 0)
      (Math_min
         (sub (add (rectTop env target) (window_scrollY env)) (of_Z 120))
         (sub (document_scrollHeight env) (window_innerHeight env))) in
  isForwardScrollRef (runTask env (AfterSpan target) st) = true /\
  scrollRequests (runTask env (AfterSpan target) st) = y :: scrollRequests st /\
  frameQueue (runTask env (AfterSpan target) st)
  = frameQueue st ++ [CheckDone y (Date_now env)].
Proof.
  intros Hout y. cbn [runTask]. rewrite Hout. repeat split; reflexivity.
Qed.







(** A forced scroll to 800 that arrives at 799 after ten frames: the lock
    is held through the ninth frame and released by the tenth, 160 ms after
    the scroll began. *)
Example lock_released_near_target :
  isForwardScrollRef
    (runFrames (map Scenario.smoothScroll (seq 0 9)) Scenario.lockedAt800) = true /\
  window_scrollY (Scenario.smoothScroll 9) = of_Z 799 /\
  Date_now (Scenario.smoothScroll 9) = 1192%Z /\
  isForwardScrollRef
    (runFrames (map Scenario.smoothScroll (seq 0 10)) Scenario.lockedAt800) = false.
Proof. vm_compute. repeat split; reflexivity. Qed.

(** A forced scroll that never moves: the lock is held for 100 frames and
    released by the next one, the first that reads more than 1600 ms. *)
Example lock_released_by_timeout :
  isForwardScrollRef
    (runFrames (map Scenario.stuckScroll (seq 0 100)) Scenario.lockedAt800) = true /\
  Date_now (Scenario.stuckScroll 100) = (1032 + 1616)%Z /\
  isForwardScrollRef
    (runFrames (map Scenario.stuckScroll (seq 0 101)) Scenario.lockedAt800) = false.
Proof. vm_compute. repeat split; reflexivity. Qed.

(** *** Collapsing *)

(** Neither handler step of [onMouseEnter] writes a row span: the span of
    every item is what it was, and the only callback queued recomputes the
    span of the entered item. *)
Lemma onMouseEnter_keeps_spans (env : Env) (target id : ItemId) (st : State) :
  gridRowEnd <$> items (onMouseEnter env target st) !! id
  = gridRowEnd <$> items st !! id.
Proof.
  destruct (isForwardScrollRef st) eqn:Hlock.
  { unfold onMouseEnter. rewrite Hlock. reflexivity. }
  destruct (onMouseEnter_effect env target st Hlock) as (-> & _).
  assert (Hexp : forall m : gmap ItemId ItemNode,
            gridRowEnd <$> alter expandNode target m !! id = gridRowEnd <$> m !! id).
  { intros m. rewrite lookup_alter. case_decide; [subst|reflexivity].
    destruct (m !! id); reflexivity. }
  assert (Hcol : forall prev (m : gmap ItemId ItemNode),
            gridRowEnd <$> alter collapseNode prev m !! id = gridRowEnd <$> m !! id).
  { intros prev m. rewrite lookup_alter. case_decide; [subst|reflexivity].
    destruct (m !! id); reflexivity. }
  rewrite Hexp. destruct (expandedItemRef st) as [prev|]; [|reflexivity].
  destruct (decide (prev = target)); [reflexivity | apply Hcol].
Qed.

(** An accepted pointer-enter on [target] while another item [prev] is
    expanded: in that one step [prev] loses its column span and both
    classes, [target] gets them, and the ref moves to [target]. *)
Lemma onMouseEnter_swaps (env : Env) (target prev : ItemId) (st : State)
    (n m : ItemNode) :
  isForwardScrollRef st = false ->
  expandedItemRef st = Some prev ->
  prev <> target ->
  items st !! prev = Some n ->
  items st !! target = Some m ->
  items (onMouseEnter env target st) !! prev = Some (collapseNode n) /\
  items (onMouseEnter env target st) !! target = Some (expandNode m) /\
  expandedItemRef (onMouseEnter env target st) = Some target.
Proof.
  intros Hlock Hprev Hne Hn Hm.
  destruct (onMouseEnter_effect env target st Hlock) as (-> & -> & _).
  rewrite Hprev. destruct (decide (prev = target)) as [E | _]; [contradiction|].
  rewrite lookup_alter_ne by congruence. rewrite lookup_alter_eq, Hn.
  rewrite lookup_alter_eq, lookup_alter_ne by exact Hne. rewrite Hm.
  repeat split; reflexivity.
Qed.

(** The deferred check never touches an item, whatever it finds. *)
Lemma waitForUnlock_keeps_items (env : Env) (target : ItemId) (st : State) :
  items (runTask env (WaitForUnlock target) st) = items st /\
  expandedItemRef (runTask env (WaitForUnlock target) st) = expandedItemRef st.
Proof.
  cbn [runTask]. destruct (negb (isForwardScrollRef st)); [|split; reflexivity].
  destruct (negb (hovered env target)); split; reflexivity.
Qed.

Lemma runFrames_empty_queue (envs : list Env) (st : State) :
  frameQueue st = [] -> runFrames envs st = st.
Proof.
  intros Hq. induction envs as [|env envs IH]; [reflexivity|].
  unfold runFrames in *. cbn [map run fold_left step]. rewrite Hq. exact IH.
Qed.

(** C9.  The pointer leaves the expanded item while the lock is engaged for
    it: the collapse is deferred and the check is polled until the lock is
    released. The check then finds the pointer outside the item, and the
    item nevertheless stays expanded, with its classes, its column span
    and its span of 26 rows, on that frame and on every later one: the
    [collapse] event it dispatches has no listener. *)
Theorem deferred_collapse_is_lost :
  let atLeave := run (firstn 3 Scenario.leaveDuringScroll) (mount Scenario.dom) in
  let deferred := run (firstn 4 Scenario.leaveDuringScroll) (mount Scenario.dom) in
  let settled := run Scenario.leaveDuringScroll (mount Scenario.dom) in
  (isForwardScrollRef atLeave = true /\
   expandedItemRef atLeave = Some Scenario.item0) /\
  (isExpanded <$> items deferred !! Scenario.item0 = Some true /\
   frameQueue deferred
   = [CheckDone (of_Z 800) 1032; WaitForUnlock Scenario.item0]) /\
  (isForwardScrollRef settled = false /\
   frameQueue settled = [] /\
   items settled !! Scenario.item0
   = Some {| gridColumnFull := true; expandedClass := true;
             ownExpandedImage := false; imgNode := Some true;
             gridRowEnd := Some (of_Z 26) |} /\
   expandedItemRef settled = Some Scenario.item0) /\
  (forall envs : list Env, runFrames envs settled = settled).
Proof.
  intros atLeave deferred settled.
  split; [vm_compute; split; reflexivity|].
  split; [vm_compute; split; reflexivity|].
  split; [vm_compute; repeat split; reflexivity|].
  intros envs. apply runFrames_empty_queue. vm_compute. reflexivity.
Qed.

(** C7.  Item 0 is expanded, at a span of 26 rows, when the pointer enters
    item 2 of the same grid. In that step item 0 loses its classes and its
    column span and item 2 is expanded; but the span of item 0 is not
    recomputed: it stays at 26 rows while its content, 200 px high again,
    spans 9, and no pending callback will write it. *)
Theorem enter_leaves_stale_span :
  let before := run Scenario.leaveDuringScroll (mount Scenario.dom) in
  let env := Scenario.browser 2032 800 (Some Scenario.item2) 100 700
               (Some Scenario.item2) in
  let after := run (Scenario.leaveDuringScroll ++ Scenario.thenEnterItem2)
                   (mount Scenario.dom) in
  isExpanded <$> items before !! Scenario.item0 = Some true /\
  isExpanded <$> items after !! Scenario.item0 = Some false /\
  isExpanded <$> items after !! Scenario.item2 = Some true /\
  gridRowEnd <$> items after !! Scenario.item0 = Some (Some (of_Z 26)) /\
  computeSpan (boxOf env after Scenario.item0) (styleOf env 1%nat) = of_Z 9 /\
  frameQueue after = [] /\
  (forall envs : list Env, runFrames envs after = after).
Proof.
  intros before env after.
  assert (Hq : frameQueue after = []) by (vm_compute; reflexivity).
  repeat split; try (vm_compute; reflexivity).
  intros envs. apply runFrames_empty_queue, Hq.
Qed.

End HoverFacts.

(** ** Further properties of the row spans *)

Section MasonrySpanFacts.
Import JS Masonry.

Lemma getRowMetrics_positive (rh rg : Q) :
  (0 < rh)%Q -> (0 < rg)%Q ->
  getRowMetrics {| grid_auto_rows := Fin rh; row_gap := Fin rg |}
  = {| rowHeight := Fin rh; rowGap := Fin rg |}.
Proof.
  intros Hrh Hrg. unfold getRowMetrics, or_else, truthy. cbn.
  rewrite (Qeq_bool_false_pos rh Hrh), (Qeq_bool_false_pos rg Hrg). reflexivity.
Qed.

Lemma computeSpan_positive (item : ItemBox) (h rh rg : Q) :
  contentHeight item = Fin h ->
  (0 < rh)%Q -> (0 < rg)%Q ->
  computeSpan item {| grid_auto_rows := Fin rh; row_gap := Fin rg |}
  = of_Z (Z.max 1 (Qceiling ((h + rg) / (rh + rg)))).
Proof.
  intros Hh Hrh Hrg. unfold computeSpan.
  rewrite getRowMetrics_positive, Hh by assumption.
  apply spanOf_finite. lra.
Qed.

Lemma quotient_times_divisor (a d : Q) : (0 < d)%Q -> (a / d * d == a)%Q.
Proof. intros Hd. field. intros E. rewrite E in Hd. revert Hd. apply Qlt_irrefl. Qed.

(** In exact arithmetic the rows of a span, gaps included, are at least as
    tall as the content, and one row fewer would be too short. *)
Lemma span_fits_exact (item : ItemBox) (h rh rg : Q) :
  contentHeight item = Fin h ->
  (0 <= h)%Q -> (0 < rh)%Q -> (0 < rg)%Q ->
  exists z : Z,
    computeSpan item {| grid_auto_rows := Fin rh; row_gap := Fin rg |} = of_Z z /\
    (1 <= z)%Z /\
    (h <= inject_Z z * rh + (inject_Z z - 1) * rg)%Q /\
    ((1 < z)%Z -> ((inject_Z z - 1) * rh + (inject_Z z - 2) * rg < h)%Q).
Proof.
  intros Hh Hh0 Hrh Hrg.
  set (x := ((h + rg) / (rh + rg))%Q).
  exists (Z.max 1 (Qceiling x)).
  split; [apply computeSpan_positive; assumption|].
  split; [lia|].
  assert (Hd : (0 < rh + rg)%Q) by lra.
  assert (Hx : (x * (rh + rg) == h + rg)%Q) by (apply quotient_times_divisor, Hd).
  assert (Hup : (x <= inject_Z (Qceiling x))%Q) by apply Qle_ceiling.
  assert (Hlow : (inject_Z (Qceiling x) - 1 < x)%Q).
  { pose proof (Qceiling_lt x) as H.
    replace (Qceiling x - 1)%Z with (Qceiling x + -1)%Z in H by lia.
    rewrite inject_Z_plus in H. change (inject_Z (-1)) with (-1)%Q in H. lra. }
  destruct (Z.max_spec 1 (Qceiling x)) as [[Hlt ->] | [Hge ->]].
  - split.
    + assert (Hmul : (x * (rh + rg) <= inject_Z (Qceiling x) * (rh + rg))%Q)
        by (apply Qmult_le_compat_r; [exact Hup | lra]).
      lra.
    + intros _.
      assert (Hmul : ((inject_Z (Qceiling x) - 1) * (rh + rg) < x * (rh + rg))%Q)
        by (apply Qmult_lt_compat_r; [exact Hd | exact Hlow]).
      lra.
  - split; [|lia].
    assert (Hc : (inject_Z (Qceiling x) <= inject_Z 1)%Q) by (rewrite <- Zle_Qle; lia).
    assert (Hmul : (x * (rh + rg) <= inject_Z 1 * (rh + rg))%Q).
    { apply Qmult_le_compat_r; [|lra]. eapply Qle_trans; eassumption. }
    change (inject_Z 1) with 1%Q in *. lra.
Qed.

(** X1.  For whole-pixel readings below [2^52] (where the two sums of
    the source are exact in binary64 and the rounded quotient of two
    integers below [2^53] has the ceiling of the exact one), the rows a
    span covers, gaps between them included, are at least as tall as the
    content measured, and one row fewer would be too short whenever the
    span is more than one row. *)
Theorem span_fits_content (item : ItemBox) (h rh rg : Z) :
  contentHeight item = of_Z h ->
  (0 <= h < 2 ^ 52)%Z -> (0 < rh < 2 ^ 52)%Z -> (0 < rg < 2 ^ 52)%Z ->
  exists z : Z,
    computeSpan item {| grid_auto_rows := of_Z rh; row_gap := of_Z rg |} = of_Z z /\
    (1 <= z)%Z /\
    (h <= z * rh + (z - 1) * rg)%Z /\
    ((1 < z)%Z -> ((z - 1) * rh + (z - 2) * rg < h)%Z).
Proof.
  intros Hh Hh0 Hrh Hrg.
  destruct (span_fits_exact item (inject_Z h) (inject_Z rh) (inject_Z rg) Hh)
    as (z & Hz & H1 & Hfit & Hmin).
  - change 0%Q with (inject_Z 0). rewrite <- Zle_Qle. lia.
  - change 0%Q with (inject_Z 0). rewrite <- Zlt_Qlt. lia.
  - change 0%Q with (inject_Z 0). rewrite <- Zlt_Qlt. lia.
  - exists z. split; [exact Hz|]. split; [exact H1|]. split.
    + rewrite Zle_Qle. unfold Z.sub.
      rewrite !inject_Z_plus, !inject_Z_mult, !inject_Z_plus, !inject_Z_opp.
      change (inject_Z 1) with 1%Q. lra.
    + intros Hz1. specialize (Hmin Hz1). rewrite Zlt_Qlt. unfold Z.sub.
      rewrite !inject_Z_plus, !inject_Z_mult, !inject_Z_plus, !inject_Z_opp.
      change (inject_Z 1) with 1%Q. change (inject_Z 2) with 2%Q. lra.
Qed.

Lemma span_fits_content_witness :
  exists z : Z,
    computeSpan sampleItem defaultStyle = of_Z z /\
    (200 <= z * 8 + (z - 1) * 16)%Z.
Proof.
  destruct (span_fits_content sampleItem 200 8 16) as (z & Hz & _ & Hfit & _).
  - reflexivity.
  - split; [discriminate | reflexivity].
  - split; reflexivity.
  - split; reflexivity.
  - exists z. split; [exact Hz | exact Hfit].
Defined.

(** X2.  Under the same metrics, taller content never gets a smaller
    span. *)
Theorem span_monotone (item1 item2 : ItemBox) (h1 h2 rh rg : Q) :
  contentHeight item1 = Fin h1 ->
  contentHeight item2 = Fin h2 ->
  (h1 <= h2)%Q -> (0 < rh)%Q -> (0 < rg)%Q ->
  exists z1 z2 : Z,
    computeSpan item1 {| grid_auto_rows := Fin rh; row_gap := Fin rg |} = of_Z z1 /\
    computeSpan item2 {| grid_auto_rows := Fin rh; row_gap := Fin rg |} = of_Z z2 /\
    (z1 <= z2)%Z.
Proof.
  intros H1 H2 Hle Hrh Hrg.
  eexists. eexists.
  split; [apply computeSpan_positive; eassumption|].
  split; [apply computeSpan_positive; eassumption|].
  apply Z.max_le_compat_l, Qceiling_resp_le.
  apply Qmult_le_compat_r; [lra|].
  apply Qlt_le_weak, Qinv_lt_0_compat. lra.
Qed.

Lemma span_monotone_witness :
  exists z1 z2 : Z,
    computeSpan sampleItem defaultStyle = of_Z z1 /\
    computeSpan {| img_height := Some (of_Z 600); own_height := of_Z 600 |}
                defaultStyle = of_Z z2 /\
    (z1 <= z2)%Z.
Proof.
  apply (span_monotone sampleItem
           {| img_height := Some (of_Z 600); own_height := of_Z 600 |}
           200 600 8 16).
  - reflexivity.
  - reflexivity.
  - apply Qle_bool_imp_le. reflexivity.
  - reflexivity.
  - reflexivity.
Defined.

(** X3.  Content no taller than one row, in particular an image that has
    not loaded and measures 0, gets a span of exactly one row. *)
Theorem short_content_spans_one_row (item : ItemBox) (h rh rg : Q) :
  contentHeight item = Fin h ->
  (h <= rh)%Q -> (0 < rh)%Q -> (0 < rg)%Q ->
  computeSpan item {| grid_auto_rows := Fin rh; row_gap := Fin rg |} = of_Z 1.
Proof.
  intros Hh Hle Hrh Hrg. rewrite (computeSpan_positive item h rh rg) by assumption.
  f_equal. apply Z.max_l.
  rewrite <- (Qceiling_Z 1). apply Qceiling_resp_le.
  assert (Hd : (0 < rh + rg)%Q) by lra.
  apply Qle_shift_div_r; [exact Hd|]. change (inject_Z 1) with 1%Q. lra.
Qed.

Lemma short_content_spans_one_row_witness :
  computeSpan {| img_height := Some (of_Z 0); own_height := of_Z 300 |}
              defaultStyle = of_Z 1.
Proof.
  apply (short_content_spans_one_row _ 0 8 16).
  - reflexivity.
  - apply Qle_bool_imp_le. reflexivity.
  - reflexivity.
  - reflexivity.
Defined.

End MasonrySpanFacts.

(** ** Further properties of the scroll indicator *)

Section ProgressRangeFacts.
Import JS Progress.

(** A 5000 px document in a 900 px viewport, scrolled past its end. *)
Lemma handleScroll_bounds_overflow_witness :
  in_unit_interval
    (handleScroll {| innerHeight := Fin 900; scrollHeight := Fin 5000;
                     scrollY := Fin 4300 |}).
Proof.
  apply (handleScroll_bounds_overflow 4300 5000 900).
  intros H. vm_compute in H. discriminate H.
Defined.

Lemma clamp_value (q : Q) :
  exists r : Q,
    Math_min (Math_max (Fin q) (of_Z 0)) (of_Z 1) = Fin r /\
    ((q <= 0)%Q -> (r == 0)%Q) /\
    ((1 <= q)%Q -> (r == 1)%Q) /\
    ((0 <= q)%Q -> (q <= 1)%Q -> (r == q)%Q).
Proof.
  unfold Math_max, of_Z. destruct (Qltb q (inject_Z 0)) eqn:Hlo.
  - apply Qltb_true in Hlo. change (inject_Z 0) with 0%Q in *.
    exists 0%Q. split; [reflexivity|].
    repeat split; intros; lra.
  - apply Qltb_false in Hlo. change (inject_Z 0) with 0%Q in *.
    unfold Math_min. destruct (Qltb (inject_Z 1) q) eqn:Hhi.
    + apply Qltb_true in Hhi. change (inject_Z 1) with 1%Q in *.
      exists 1%Q. split; [reflexivity|]. repeat split; intros; lra.
    + apply Qltb_false in Hhi. change (inject_Z 1) with 1%Q in *.
      exists q. split; [reflexivity|]. repeat split; intros; lra.
Qed.

(** X5.  When the document overflows the viewport by [d = scrollHeight -
    innerHeight > 0], the progress is [scrollY / d] between the top and the
    bottom of the page, 0 at the top and for negative offsets, 1 at the
    bottom and beyond. *)
Theorem handleScroll_piecewise (sy sh ih : Q) :
  (0 < sh - ih)%Q ->
  exists r : Q,
    handleScroll {| innerHeight := Fin ih; scrollHeight := Fin sh;
                    scrollY := Fin sy |} = Fin r /\
    ((sy <= 0)%Q -> (r == 0)%Q) /\
    ((sh - ih <= sy)%Q -> (r == 1)%Q) /\
    ((0 <= sy)%Q -> (sy <= sh - ih)%Q -> (r == sy / (sh - ih))%Q).
Proof.
  intros Hd. unfold handleScroll. cbn [innerHeight scrollHeight scrollY sub neg add].
  change (sh + - ih)%Q with (sh - ih)%Q.
  rewrite div_Fin_pos by exact Hd.
  destruct (clamp_value (sy / (sh - ih))) as (r & Hr & Hlow & Hhigh & Hmid).
  exists r. split; [exact Hr|].
  split; [|split].
  - intros Hsy. apply Hlow. apply Qle_shift_div_r; [exact Hd | lra].
  - intros Hsy. apply Hhigh. apply Qle_shift_div_l; [exact Hd | lra].
  - intros H0 H1. apply Hmid.
    + apply Qle_shift_div_l; [exact Hd | lra].
    + apply Qle_shift_div_r; [exact Hd | lra].
Qed.

Lemma handleScroll_piecewise_witness :
  exists r : Q,
    handleScroll {| innerHeight := Fin 900; scrollHeight := Fin 5000;
                    scrollY := Fin 1025 |} = Fin r /\
    (r == 1025 / (5000 - 900))%Q.
Proof.
  destruct (handleScroll_piecewise 1025 5000 900) as (r & Hr & _ & _ & Hmid).
  - reflexivity.
  - exists r. split; [exact Hr|].
    apply Hmid; apply Qle_bool_imp_le; reflexivity.
Defined.

End ProgressRangeFacts.

(** ** Further properties of the lightbox *)

Section ModalFacts.
Import Lightbox Modal.

Lemma lightbox_pageStep (posts : list BlogPostData) (page : Page) (g : Gesture) :
  lightbox (pageStep posts page g) = lightboxStep posts (lightbox page) g.
Proof.
  destruct g as [index imgIndex | key | | | ]; cbn [pageStep lightboxStep].
  - unfold clickImage. case_bool_decide; reflexivity.
  - unfold handleKeyDown. destruct (isOpen (lightbox page)); [|reflexivity].
    destruct key; reflexivity.
  - destruct (arrowsRendered posts (lightbox page)); reflexivity.
  - destruct (arrowsRendered posts (lightbox page)); reflexivity.
  - destruct (modalRendered posts (lightbox page)); reflexivity.
Qed.

Lemma lightbox_pageAfter (posts : list BlogPostData) (gs : list Gesture) :
  lightbox (pageAfter posts gs) = lightboxAfter posts gs.
Proof.
  unfold pageAfter, lightboxAfter.
  change initialLightbox with (lightbox initialPage).
  generalize initialPage as page.
  induction gs as [|g gs IH]; intros page; [reflexivity|].
  cbn [fold_left]. rewrite IH, lightbox_pageStep. reflexivity.
Qed.

Lemma pageStep_lock (posts : list BlogPostData) (page : Page) (g : Gesture) :
  (bodyOverflow page = hidden <-> isOpen (lightbox page) = true) ->
  (bodyOverflow (pageStep posts page g) = hidden <->
   isOpen (lightbox (pageStep posts page g)) = true).
Proof.
  intros Hinv.
  assert (Hnav : forall d,
            bodyOverflow (navigateOn posts page d) = hidden <->
            isOpen (lightbox (navigateOn posts page d)) = true).
  { intros d. cbn. rewrite isOpen_navigate. exact Hinv. }
  assert (Hclose : bodyOverflow closeLightboxOn = hidden <->
                   isOpen (lightbox closeLightboxOn) = true)
    by (cbn; split; discriminate).
  destruct g as [index imgIndex | key | | | ]; cbn [pageStep].
  - case_bool_decide; [cbn; split; reflexivity | exact Hinv].
  - destruct (isOpen (lightbox page)) eqn:Hopen; [|rewrite Hopen; exact Hinv].
    destruct key; auto. rewrite Hopen. exact Hinv.
  - destruct (arrowsRendered posts (lightbox page)); auto.
  - destruct (arrowsRendered posts (lightbox page)); auto.
  - destruct (modalRendered posts (lightbox page)); auto.
Qed.

(** X6.  Whatever the viewer does, the body is set to [overflow: hidden]
    exactly while the lightbox is open: opening locks the page scroll,
    closing by any means releases it, navigating leaves it alone. *)
Theorem page_scroll_locked_iff_open (posts : list BlogPostData)
    (gs : list Gesture) :
  bodyOverflow (pageAfter posts gs) = hidden <->
  isOpen (lightbox (pageAfter posts gs)) = true.
Proof.
  unfold pageAfter.
  assert (Hinit : bodyOverflow initialPage = hidden <->
                  isOpen (lightbox initialPage) = true)
    by (cbn; split; discriminate).
  revert Hinit. generalize initialPage as page.
  induction gs as [|g gs IH]; intros page Hinv; [exact Hinv|].
  cbn [fold_left]. apply IH, pageStep_lock, Hinv.
Qed.

Lemma imageAt_in_range (imgs : list Image) (i : Z) :
  (0 <= i < Z.of_nat (length imgs))%Z ->
  exists img, imageAt imgs (Int i) = Some img.
Proof.
  intros Hr. unfold imageAt.
  destruct (Z.leb_spec 0 i) as [_ | Hneg]; [|lia].
  apply lookup_lt_is_Some. lia.
Qed.

Lemma modalImage_shown (posts : list BlogPostData) (lb : LightboxState) :
  isOpen lb = true -> showsImage posts lb ->
  exists img, modalImage posts lb = Some (Some img).
Proof.
  intros Hopen (post & imgs & i & Hp & Hi & Hc & Hr).
  destruct (imageAt_in_range imgs i Hr) as [img Himg].
  exists img. unfold modalImage. rewrite Hopen, Hp, Hi, Hc, Himg. reflexivity.
Qed.

(** X7.  Whatever the viewer does, the modal is rendered exactly when the
    lightbox is open, and the image whose [src] and [alt] it reads exists:
    the index is never out of the post's image array. *)
Theorem modal_image_exists (posts : list BlogPostData) (gs : list Gesture) :
  if isOpen (lightboxAfter posts gs)
  then exists img, modalImage posts (lightboxAfter posts gs) = Some (Some img)
  else modalImage posts (lightboxAfter posts gs) = None.
Proof.
  destruct (isOpen (lightboxAfter posts gs)) eqn:Hopen.
  - apply (modalImage_shown _ _ Hopen).
    apply open_lightbox_shows_image, Hopen.
  - unfold modalImage. rewrite Hopen. reflexivity.
Qed.

(** X8.  On a post with a single image the arrow buttons are not rendered
    and the arrow keys leave the lightbox as it is. *)
Theorem single_image_navigation (posts : list BlogPostData)
    (lb : LightboxState) (post : BlogPostData) (img : Image) :
  posts !! postIndex lb = Some post ->
  images post = Some [img] ->
  isOpen lb = true ->
  currentImageIndex lb = Int 0 ->
  arrowsRendered posts lb = false /\
  handleKeyDown posts lb ArrowLeft = lb /\
  handleKeyDown posts lb ArrowRight = lb /\
  lightboxStep posts lb ClickPrev = lb /\
  lightboxStep posts lb ClickNext = lb.
Proof.
  intros Hp Hi Hopen Hc.
  assert (Harrows : arrowsRendered posts lb = false).
  { unfold arrowsRendered. rewrite Hp, Hi. apply andb_false_r. }
  assert (Hnav : forall d, navigateLightbox posts lb d = lb).
  { intros d. rewrite (navigate_index _ _ _ _ d Hp Hi), Hc.
    destruct lb, d; cbn in *; subst; reflexivity. }
  split; [exact Harrows|].
  unfold handleKeyDown. cbn [lightboxStep]. rewrite Hopen, Harrows, !Hnav.
  repeat split; reflexivity.
Qed.

Lemma single_image_navigation_witness :
  handleKeyDown single_image_posts (openLightbox 0 0) ArrowRight = openLightbox 0 0 /\
  arrowsRendered single_image_posts (openLightbox 0 0) = false.
Proof.
  destruct (single_image_navigation single_image_posts (openLightbox 0 0)
              {| title := "Summit";
                 images := Some [ {| src := "s.jpg"; alt := "s" |} ] |}
              {| src := "s.jpg"; alt := "s" |})
    as (Harrows & _ & Hright & _); try reflexivity.
  split; [exact Hright | exact Harrows].
Defined.

(** X9.  A post shows a featured image exactly when its gallery renders a
    first clickable image, the featured image is that first image, and a
    click on it opens the modal on the featured image. *)
Theorem featured_image_is_first (posts : list BlogPostData)
    (lb : LightboxState) (index : nat) (post : BlogPostData) :
  posts !! index = Some post ->
  (is_Some (findWidestImage (images post)) <->
   (index, 0%nat) ∈ imageCallSites posts) /\
  (forall img,
     findWidestImage (images post) = Some img ->
     modalImage posts (clickImage posts lb index 0) = Some (Some img)).
Proof.
  intros Hp. split.
  - rewrite elem_of_imageCallSites. split.
    + intros [img Himg]. exists post.
      destruct (images post) as [[|first rest]|] eqn:Hi; try discriminate Himg.
      exists (first :: rest). repeat split; auto. cbn. lia.
    + intros (post' & imgs & Hp' & Hi & Hlt).
      rewrite Hp in Hp'. injection Hp' as <-. rewrite Hi.
      destruct imgs as [|first rest]; [cbn in Hlt; lia|]. eexists. reflexivity.
  - intros img Himg.
    destruct (images post) as [[|first rest]|] eqn:Hi; try discriminate Himg.
    injection Himg as ->.
    assert (Hsite : (index, 0%nat) ∈ imageCallSites posts).
    { apply elem_of_imageCallSites. exists post, (img :: rest).
      repeat split; auto. cbn. lia. }
    unfold clickImage. rewrite bool_decide_eq_true_2 by exact Hsite.
    unfold modalImage. cbn. rewrite Hp, Hi. reflexivity.
Qed.

Lemma featured_image_is_first_witness :
  modalImage sample_posts (clickImage sample_posts initialLightbox 1 0)
  = Some (Some {| src := "a.jpg"; alt := "a" |}).
Proof.
  destruct (featured_image_is_first sample_posts initialLightbox 1 three_image_post)
    as [_ Hopen]; [reflexivity|].
  apply Hopen. reflexivity.
Defined.

Lemma lightboxStep_closed_is_initial (posts : list BlogPostData)
    (lb : LightboxState) (g : Gesture) :
  isOpen lb = true \/ lb = initialLightbox ->
  isOpen (lightboxStep posts lb g) = true \/
  lightboxStep posts lb g = initialLightbox.
Proof.
  intros Hinv.
  assert (Hnav : forall d, isOpen lb = true ->
            isOpen (navigateLightbox posts lb d) = true)
    by (intros d Ho; rewrite isOpen_navigate; exact Ho).
  assert (Harrows : arrowsRendered posts lb = true -> isOpen lb = true).
  { unfold arrowsRendered, modalRendered. intros H.
    apply andb_true_iff in H as [H _]. apply andb_true_iff in H as [H _]. exact H. }
  destruct g as [index imgIndex | key | | | ]; cbn [lightboxStep].
  - unfold clickImage. case_bool_decide; [left; reflexivity | exact Hinv].
  - unfold handleKeyDown. destruct (isOpen lb) eqn:Hopen.
    + destruct key; [right; reflexivity | left; auto | left; auto | left; exact Hopen].
    + destruct Hinv as [H | H]; [discriminate H | right; exact H].
  - destruct (arrowsRendered posts lb) eqn:Ha; auto.
  - destruct (arrowsRendered posts lb) eqn:Ha; auto.
  - destruct (modalRendered posts lb); [right; reflexivity | exact Hinv].
Qed.

Lemma fold_closed_is_initial (posts : list BlogPostData) (gs : list Gesture)
    (lb : LightboxState) :
  isOpen lb = true \/ lb = initialLightbox ->
  isOpen (fold_left (lightboxStep posts) gs lb) = true \/
  fold_left (lightboxStep posts) gs lb = initialLightbox.
Proof.
  revert lb. induction gs as [|g gs IH]; intros lb Hinv; [exact Hinv|].
  cbn [fold_left]. apply IH, lightboxStep_closed_is_initial, Hinv.
Qed.

(** X23.  Whatever the viewer does, a lightbox that is not open is in its
    initial state: closing, by the key, the button or the backdrop, leaves
    no post or image index behind. *)
Theorem closed_lightbox_is_initial (posts : list BlogPostData)
    (gs : list Gesture) :
  isOpen (lightboxAfter posts gs) = true \/
  lightboxAfter posts gs = initialLightbox.
Proof. apply fold_closed_is_initial. right. reflexivity. Qed.

End ModalFacts.

(** ** Further properties of the slugs *)

Section SlugStabilityFacts.
Import Slug.

Lemma slug_char_cases (c : N) :
  slug_char c = true -> is_lower_alnum c = true \/ c = hyphen.
Proof.
  unfold slug_char. intros H. apply orb_true_iff in H as [H | H]; [left; exact H|].
  right. apply N.eqb_eq, H.
Qed.

Lemma replaceRuns_of_slug (inRun : bool) (s : jsstring) :
  forallb slug_char s = true ->
  hasDoubleHyphen s = false ->
  (inRun = true -> startsWithHyphen s = false) ->
  replaceRuns inRun s = s.
Proof.
  revert inRun. induction s as [|c rest IH]; intros inRun Hchars Hdouble Hstart;
    [reflexivity|].
  cbn [forallb] in Hchars. apply andb_true_iff in Hchars as [Hc Hrest].
  rewrite hasDoubleHyphen_cons in Hdouble.
  apply orb_false_iff in Hdouble as [Hpair Hd].
  cbn [replaceRuns]. destruct (slug_char_cases c Hc) as [Halnum | ->].
  - rewrite Halnum. f_equal. apply IH; [assumption | assumption | discriminate].
  - change (is_lower_alnum hyphen) with false. cbv iota.
    destruct inRun; [specialize (Hstart eq_refl); discriminate Hstart|].
    f_equal. apply IH; [assumption | assumption |]. intros _.
    cbn in Hpair. exact Hpair.
Qed.

Lemma stripTrailing_of_slug (s : jsstring) :
  endsWithHyphen s = false -> stripTrailing s = s.
Proof.
  induction s as [|c rest IH]; [reflexivity|].
  rewrite endsWithHyphen_cons. destruct rest as [|d rest'].
  - intros Hc. cbn [stripTrailing]. rewrite Hc. reflexivity.
  - intros Hend. change (stripTrailing (c :: d :: rest'))
      with (c :: stripTrailing (d :: rest')).
    rewrite IH by exact Hend. reflexivity.
Qed.

Lemma stripEdges_of_slug (s : jsstring) :
  startsWithHyphen s = false -> endsWithHyphen s = false -> stripEdges s = s.
Proof.
  intros Hstart Hend. unfold stripEdges.
  assert (Hlead : stripLeading s = s).
  { destruct s as [|c rest]; [reflexivity|]. cbn in *. rewrite Hstart. reflexivity. }
  rewrite Hlead. apply stripTrailing_of_slug, Hend.
Qed.

Lemma createSlug_wellFormed (toLowerCase : jsstring -> jsstring)
    (title : jsstring) :
  wellFormedSlug (createSlug toLowerCase title).
Proof.
  unfold createSlug, stripEdges.
  destruct (replaceRuns_hyphens false (toLowerCase title)) as [Hd _].
  destruct (stripLeading_shape _ (replaceRuns_chars false _) Hd)
    as (Hc1 & Hd1 & Hs1).
  destruct (stripTrailing_shape _ Hc1 Hd1) as (Hc2 & Hd2 & He2).
  repeat split; try assumption.
  apply stripTrailing_keeps_start, Hs1.
Qed.

Lemma createSlug_of_slug (toLowerCase : jsstring -> jsstring) (s : jsstring) :
  (forall t, forallb slug_char t = true -> toLowerCase t = t) ->
  wellFormedSlug s ->
  createSlug toLowerCase s = s.
Proof.
  intros Hlower (Hchars & Hstart & Hend & Hdouble).
  unfold createSlug. rewrite (Hlower s Hchars).
  rewrite replaceRuns_of_slug by (assumption || discriminate).
  apply stripEdges_of_slug; assumption.
Qed.

Lemma asciiLower_of_slug (t : jsstring) :
  forallb slug_char t = true -> asciiLower t = t.
Proof.
  induction t as [|c rest IH]; [reflexivity|].
  cbn [forallb]. intros H. apply andb_true_iff in H as [Hc Hrest].
  cbn [asciiLower map]. fold (asciiLower rest). rewrite (IH Hrest). f_equal.
  destruct (((65 <=? c) && (c <=? 90))%N) eqn:Hupper; [|reflexivity].
  exfalso. apply andb_true_iff in Hupper as [H1 H2].
  apply N.leb_le in H1, H2.
  destruct (slug_char_cases c Hc) as [Halnum | ->]; [|vm_compute in H1; auto].
  unfold is_lower_alnum in Halnum.
  apply orb_true_iff in Halnum as [H | H]; apply andb_true_iff in H as [H3 H4];
    apply N.leb_le in H3, H4; lia.
Qed.

(** X10.  A string that already has the shape of a slug is its own slug,
    for every case mapping that leaves lowercase letters, digits and
    hyphens alone: every well-formed slug is the slug of some title. *)
Theorem slug_is_fixed_point (toLowerCase : jsstring -> jsstring) (s : jsstring) :
  (forall t, forallb slug_char t = true -> toLowerCase t = t) ->
  wellFormedSlug s ->
  createSlug toLowerCase s = s.
Proof. apply createSlug_of_slug. Qed.

Lemma slug_is_fixed_point_witness :
  createSlug asciiLower [104; 105; 45; 119]%N = [104; 105; 45; 119]%N.
Proof.
  apply (slug_is_fixed_point asciiLower).
  - apply asciiLower_of_slug.
  - repeat split; reflexivity.
Defined.

(** X11.  Slugging is idempotent: the slug of a slug is that slug, so a
    key can be re-slugged without changing. *)
Theorem createSlug_idempotent (toLowerCase : jsstring -> jsstring)
    (title : jsstring) :
  (forall t, forallb slug_char t = true -> toLowerCase t = t) ->
  createSlug toLowerCase (createSlug toLowerCase title)
  = createSlug toLowerCase title.
Proof.
  intros Hlower. apply createSlug_of_slug; [exact Hlower|].
  apply createSlug_wellFormed.
Qed.

Lemma createSlug_idempotent_witness :
  createSlug asciiLower (createSlug asciiLower sampleTitle)
  = createSlug asciiLower sampleTitle.
Proof.
  apply (createSlug_idempotent asciiLower sampleTitle).
  apply asciiLower_of_slug.
Defined.

Lemma replaceRuns_length (inRun : bool) (s : jsstring) :
  length (replaceRuns inRun s) <= length s.
Proof.
  revert inRun. induction s as [|c rest IH]; intros inRun; [reflexivity|].
  cbn [replaceRuns]. destruct (is_lower_alnum c); cbn [length].
  - specialize (IH false). lia.
  - destruct inRun; cbn [length]; specialize (IH true); lia.
Qed.

Lemma stripTrailing_length (s : jsstring) : length (stripTrailing s) <= length s.
Proof.
  induction s as [|c rest IH]; [reflexivity|].
  destruct rest as [|d rest'].
  - cbn. destruct (c =? hyphen)%N; cbn; lia.
  - change (stripTrailing (c :: d :: rest'))
      with (c :: stripTrailing (d :: rest')).
    cbn [length] in *. lia.
Qed.

(** X12.  A slug is never longer than the lowercased title it is made
    from. *)
Theorem createSlug_length (toLowerCase : jsstring -> jsstring)
    (title : jsstring) :
  length (createSlug toLowerCase title) <= length (toLowerCase title).
Proof.
  unfold createSlug, stripEdges.
  pose proof (replaceRuns_length false (toLowerCase title)) as Hruns.
  pose proof (stripTrailing_length (stripLeading (replaceRuns false (toLowerCase title))))
    as Htrail.
  assert (Hlead : forall s : jsstring, length (stripLeading s) <= length s).
  { intros [|c rest]; [reflexivity|]. cbn. destruct (c =? hyphen)%N; cbn; lia. }
  specialize (Hlead (replaceRuns false (toLowerCase title))). lia.
Qed.

End SlugStabilityFacts.

(** ** The date badge colour *)

Section BadgeFacts.
Import Badge.
Local Open Scope Z_scope.

Lemma toInt32_range (z : Z) : - 2 ^ 31 <= toInt32 z < 2 ^ 31.
Proof.
  unfold toInt32. pose proof (Z.mod_pos_bound z (2 ^ 32) eq_refl) as Hm.
  destruct (Z.ltb_spec (z mod 2 ^ 32) (2 ^ 31)); lia.
Qed.

Lemma hashOf_from_bound (src : list N) (acc : Z) :
  Forall (fun c => (c < 65536)%N) src ->
  Z.abs (fold_left hashStep src acc)
  <= Z.abs acc + (2 ^ 31 + 65535) * Z.of_nat (length src).
Proof.
  intros Hunits. revert acc. induction Hunits as [|c rest Hc _ IH]; intros acc.
  - cbn. lia.
  - cbn [fold_left length]. etransitivity; [apply IH|].
    unfold hashStep, shiftLeft5.
    pose proof (toInt32_range (Z.shiftl (toInt32 acc) 5)) as Hs.
    lia.
Qed.

(** X13.  Whatever the image URL, the badge gets one of the eight colour
    classes: the index computed from the hash is never out of range. *)
Theorem getContrastColor_defined (imageSrc : list N) :
  exists c, getContrastColor imageSrc = Some c /\ c ∈ colors.
Proof.
  unfold getContrastColor.
  set (i := Z.to_nat (Z.rem (Z.abs (hashOf imageSrc)) (Z.of_nat (length colors)))).
  assert (Hi : (i < length colors)%nat).
  { subst i. cbn [length colors].
    pose proof (Z.rem_bound_pos (Z.abs (hashOf imageSrc)) 8) as Hb.
    change (Z.of_nat 8) with 8. lia. }
  destruct (lookup_lt_is_Some_2 colors i Hi) as [c Hc].
  exists c. split; [exact Hc|]. eapply list_elem_of_lookup_2, Hc.
Qed.

(** X14.  The hash of a URL of [n] code units is at most
    [n * (2^31 + 65535)] in absolute value, so for URLs of fewer than
    [2^21] code units it stays below [2^53], where numbers hold integers
    exactly. *)
Theorem hashOf_bound (imageSrc : list N) :
  Forall (fun c => (c < 65536)%N) imageSrc ->
  Z.abs (hashOf imageSrc) <= (2 ^ 31 + 65535) * Z.of_nat (length imageSrc) /\
  (Z.of_nat (length imageSrc) < 2 ^ 21 -> Z.abs (hashOf imageSrc) < 2 ^ 53).
Proof.
  intros Hunits. pose proof (hashOf_from_bound imageSrc 0 Hunits) as Hb.
  fold (hashOf imageSrc) in Hb. cbn [Z.abs] in Hb. split; [lia|].
  intros Hlen. lia.
Qed.

Lemma hashOf_bound_witness :
  Z.abs (hashOf sampleSrc) < 2 ^ 53.
Proof.
  destruct (hashOf_bound sampleSrc) as [_ Hexact].
  - repeat constructor.
  - apply Hexact. reflexivity.
Defined.

End BadgeFacts.

(** ** Share links and deep links *)

Section DeepLinkFacts.
Import Slug DeepLink.

Lemma attachRefs_snoc (toLowerCase : jsstring -> jsstring)
    (titles : list jsstring) (t : jsstring) :
  attachRefs toLowerCase (titles ++ [t])
  = <[createSlug toLowerCase t := length titles]> (attachRefs toLowerCase titles).
Proof.
  unfold attachRefs. rewrite imap_app, fold_left_app. cbn.
  rewrite Nat.add_0_r. reflexivity.
Qed.

(** The entry under a hash is the last article whose title has that slug. *)
Lemma attachRefs_spec (toLowerCase : jsstring -> jsstring)
    (titles : list jsstring) (hash : jsstring) :
  match attachRefs toLowerCase titles !! hash with
  | Some j =>
      (exists t, titles !! j = Some t /\ createSlug toLowerCase t = hash) /\
      (forall k t', titles !! k = Some t' ->
                    createSlug toLowerCase t' = hash -> k <= j)
  | None =>
      forall k t', titles !! k = Some t' -> createSlug toLowerCase t' <> hash
  end.
Proof.
  induction titles as [|t titles IH] using rev_ind.
  - change (attachRefs toLowerCase []) with (∅ : gmap jsstring nat).
    rewrite lookup_empty. intros k t' Hk. rewrite lookup_nil in Hk.
    discriminate Hk.
  - rewrite attachRefs_snoc.
    destruct (decide (createSlug toLowerCase t = hash)) as [Heq | Hne].
    + rewrite Heq, lookup_insert_eq. split.
      * exists t. split; [|exact Heq]. apply list_lookup_middle. reflexivity.
      * intros k t' Hk _. apply lookup_lt_Some in Hk.
        rewrite length_app in Hk. cbn in Hk. lia.
    + rewrite lookup_insert_ne by exact Hne.
      assert (Hold : forall k t', (titles ++ [t]) !! k = Some t' ->
                createSlug toLowerCase t' = hash -> titles !! k = Some t').
      { intros k t' Hk Hslug. apply lookup_app_Some in Hk as [Hk | [Hge Hk]];
          [exact Hk|].
        apply list_lookup_singleton_Some in Hk as [_ <-]. contradiction. }
      destruct (attachRefs toLowerCase titles !! hash) as [j|].
      * destruct IH as [(t0 & Hj & Hslug) Hlast]. split.
        -- exists t0. split; [|exact Hslug]. apply lookup_app_l_Some, Hj.
        -- intros k t' Hk Hs. apply (Hlast k t'); [|exact Hs]. apply Hold; assumption.
      * intros k t' Hk Hs. apply (IH k t'); [|exact Hs]. apply Hold; assumption.
Qed.

(** X15.  The link [sharePost] builds for an article leads the deep-link
    effect to an article whose title has the same slug, namely the last
    such article of the feed; an article whose slug is empty gets a link
    with an empty hash, which the effect ignores. *)
Theorem share_link_round_trip (toLowerCase : jsstring -> jsstring)
    (titles : list jsstring) (i : nat) (title : jsstring) :
  titles !! i = Some title ->
  match createSlug toLowerCase title with
  | [] => deepLinkTarget toLowerCase titles (shareHash toLowerCase title) = None
  | _ =>
      exists j t',
        deepLinkTarget toLowerCase titles (shareHash toLowerCase title) = Some j /\
        titles !! j = Some t' /\
        createSlug toLowerCase t' = createSlug toLowerCase title /\
        i <= j /\
        (forall k t'', titles !! k = Some t'' ->
           createSlug toLowerCase t'' = createSlug toLowerCase title -> k <= j)
  end.
Proof.
  intros Hi. unfold deepLinkTarget, shareHash.
  destruct titles as [|t0 rest]; [rewrite lookup_nil in Hi; discriminate Hi|].
  set (titles := t0 :: rest) in *.
  pose proof (attachRefs_spec toLowerCase titles (createSlug toLowerCase title))
    as Hspec.
  destruct (createSlug toLowerCase title) as [|c slug] eqn:Hslug; [reflexivity|].
  destruct (attachRefs toLowerCase titles !! (c :: slug)) as [j|].
  - destruct Hspec as [(t' & Hj & Hs) Hlast].
    exists j, t'. repeat split; try assumption.
    apply (Hlast i title Hi Hslug).
  - exfalso. apply (Hspec i title Hi Hslug).
Qed.

Lemma share_link_round_trip_witness :
  deepLinkTarget asciiLower sampleTitles
    (shareHash asciiLower [72; 101; 108; 108; 111; 32; 87; 111; 114; 108; 100]%N)
  = Some 1 /\
  deepLinkTarget asciiLower sampleTitles (shareHash asciiLower [33; 33; 33]%N)
  = None.
Proof.
  pose proof (share_link_round_trip asciiLower sampleTitles 0
                [72; 101; 108; 108; 111; 32; 87; 111; 114; 108; 100]%N eq_refl)
    as Hfirst.
  pose proof (share_link_round_trip asciiLower sampleTitles 2
                [33; 33; 33]%N eq_refl) as Hempty.
  cbn in Hempty. split; [|exact Hempty].
  vm_compute. reflexivity.
Defined.

End DeepLinkFacts.

(** ** Further properties of the hover session *)

Section HoverSessionFacts.
Import JS Masonry Hover.

Ltac unfold_updates :=
  unfold requestAnimationFrame, set_queue, set_refs, set_items, set_original,
    set_lock, resetGridScale, scrollTo, dispatchEvent;
  cbn.

(** X22.  An accepted pointer-enter on [target] while another item [prev]
    is expanded: in that one handler call [prev] has its column span and
    its [masonry-item-expanded] class removed and its image loses
    [expanded-image]; [target] spans the full row, carries
    [masonry-item-expanded] and its image (the item itself when it has
    none) carries [expanded-image]; no row span is written; every other
    item is as it was; and the ref points at [target]. *)
Theorem enter_swaps_expanded_item (env : Env) (target prev : ItemId)
    (st : State) (n m : ItemNode) :
  isForwardScrollRef st = false ->
  expandedItemRef st = Some prev ->
  prev <> target ->
  items st !! prev = Some n ->
  items st !! target = Some m ->
  items (onMouseEnter env target st) !! prev
  = Some {| gridColumnFull := false;
            expandedClass := false;
            ownExpandedImage := ownExpandedImage n;
            imgNode := match imgNode n with Some _ => Some false | None => None end;
            gridRowEnd := gridRowEnd n |} /\
  items (onMouseEnter env target st) !! target
  = Some {| gridColumnFull := true;
            expandedClass := true;
            ownExpandedImage :=
              match imgNode m with Some _ => ownExpandedImage m | None => true end;
            imgNode := match imgNode m with Some _ => Some true | None => None end;
            gridRowEnd := gridRowEnd m |} /\
  (forall id, id <> prev -> id <> target ->
     items (onMouseEnter env target st) !! id = items st !! id) /\
  expandedItemRef (onMouseEnter env target st) = Some target.
Proof.
  intros Hlock Hprev Hne Hn Hm.
  destruct (onMouseEnter_swaps env target prev st n m Hlock Hprev Hne Hn Hm)
    as (Hp & Ht & Href).
  split; [rewrite Hp; unfold collapseNode; destruct (imgNode n); reflexivity|].
  split; [rewrite Ht; unfold expandNode; destruct (imgNode m); reflexivity|].
  split; [|exact Href].
  intros id Hid1 Hid2.
  destruct (onMouseEnter_effect env target st Hlock) as (-> & _).
  rewrite Hprev. destruct (decide (prev = target)) as [E | _]; [contradiction|].
  rewrite !lookup_alter_ne by congruence. reflexivity.
Qed.

Lemma enter_swaps_expanded_item_witness :
  items (onMouseEnter
           (Scenario.browser 2000 800 (Some Scenario.item0) 300 500
              (Some Scenario.item2))
           Scenario.item2
           (run Scenario.leaveDuringScroll (mount Scenario.dom)))
    !! Scenario.item0
  = Some {| gridColumnFull := false; expandedClass := false;
            ownExpandedImage := false; imgNode := Some false;
            gridRowEnd := Some (of_Z 26) |}.
Proof.
  destruct (enter_swaps_expanded_item
              (Scenario.browser 2000 800 (Some Scenario.item0) 300 500
                 (Some Scenario.item2))
              Scenario.item2 Scenario.item0
              (run Scenario.leaveDuringScroll (mount Scenario.dom))
              {| gridColumnFull := true; expandedClass := true;
                 ownExpandedImage := false; imgNode := Some true;
                 gridRowEnd := Some (of_Z 26) |}
              (freshNode true))
    as (Hprev & _).
  - vm_compute. reflexivity.
  - vm_compute. reflexivity.
  - discriminate.
  - vm_compute. reflexivity.
  - vm_compute. reflexivity.
  - exact Hprev.
Defined.

(** The refs and the scroll log after an accepted pointer-enter. *)
Lemma onMouseEnter_session (env : Env) (target : ItemId) (st : State) :
  isForwardScrollRef st = false ->
  expandedGridRef (onMouseEnter env target st) = Some (gridOf target) /\
  originalScrollYRef (onMouseEnter env target st)
  = match expandedItemRef st with
    | None => Some (window_scrollY env)
    | Some _ => originalScrollYRef st
    end /\
  scrollRequests (onMouseEnter env target st) = scrollRequests st.
Proof.
  intros Hlock. unfold onMouseEnter. rewrite Hlock.
  destruct (expandedItemRef st) as [prev|] eqn:Hprev; unfold_updates;
    rewrite ?Hprev.
  - destruct (decide (prev = target)); unfold_updates;
      (destruct (expandedGridRef st) as [g|]; unfold_updates;
       [destruct (decide (g = gridOf target)); unfold_updates|]);
      repeat split; reflexivity.
  - destruct (expandedGridRef st) as [g|]; unfold_updates;
      [destruct (decide (g = gridOf target)); unfold_updates|];
      repeat split; reflexivity.
Qed.

(** The refs, the scroll log and the queue after a pointer-leave. *)
Lemma onMouseLeave_session (target : ItemId) (related : RelatedTarget)
    (st : State) :
  let st' := onMouseLeave target related st in
  isForwardScrollRef st' = isForwardScrollRef st /\
  (exists t, frameQueue st' = frameQueue st ++ [t]) /\
  if isForwardScrollRef st && bool_decide (expandedItemRef st = Some target)
  then st' = requestAnimationFrame (WaitForUnlock target) st
  else
    match movingWithinGrid (gridOf target) related with
    | Some within =>
        if bool_decide (expandedItemRef st = Some target)
        then expandedItemRef st' = None /\ expandedGridRef st' = None /\
             match originalScrollYRef st with
             | Some orig =>
                 if within
                 then scrollRequests st' = scrollRequests st /\
                      originalScrollYRef st' = Some orig
                 else scrollRequests st'
                      = Math_max (of_Z 0) orig :: scrollRequests st /\
                      originalScrollYRef st' = None
             | None => scrollRequests st' = scrollRequests st /\
                       originalScrollYRef st' = None
             end
        else expandedItemRef st' = expandedItemRef st /\
             expandedGridRef st' = expandedGridRef st /\
             originalScrollYRef st' = originalScrollYRef st /\
             scrollRequests st' = scrollRequests st
    | None =>
        expandedItemRef st' = expandedItemRef st /\
        expandedGridRef st' = expandedGridRef st /\
        originalScrollYRef st' = originalScrollYRef st /\
        scrollRequests st' = scrollRequests st
    end.
Proof.
  intros st'. subst st'. unfold onMouseLeave.
  destruct (isForwardScrollRef st && bool_decide (expandedItemRef st = Some target))
    eqn:Hdefer.
  { repeat split; eauto. }
  destruct (movingWithinGrid (gridOf target) related) as [within|];
    unfold_updates; [|repeat split; eauto].
  case_bool_decide as Href; unfold_updates.
  - destruct (originalScrollYRef st) as [orig|] eqn:Horig; unfold_updates.
    + destruct within; unfold_updates; rewrite ?Horig; repeat split; eauto.
    + rewrite ?Horig. repeat split; eauto.
  - repeat split; eauto.
Qed.

Lemma runTask_session (env : Env) (t : Task) (st : State) :
  expandedItemRef (runTask env t st) = expandedItemRef st /\
  expandedGridRef (runTask env t st) = expandedGridRef st /\
  originalScrollYRef (runTask env t st) = originalScrollYRef st.
Proof.
  destruct t as [target | target | y start | target | target]; cbn [runTask].
  - repeat split; reflexivity.
  - destruct (_ || _); repeat split; reflexivity.
  - destruct (_ || _); repeat split; reflexivity.
  - destruct (negb (isForwardScrollRef st)); [|repeat split; reflexivity].
    destruct (negb (hovered env target)); repeat split; reflexivity.
  - repeat split; reflexivity.
Qed.

Lemma step_session (st : State) (occ : Env * Event) :
  expandedGridRef st = gridOf <$> expandedItemRef st /\
  (expandedItemRef st = None \/ is_Some (originalScrollYRef st)) ->
  expandedGridRef (step st occ) = gridOf <$> expandedItemRef (step st occ) /\
  (expandedItemRef (step st occ) = None \/
   is_Some (originalScrollYRef (step st occ))).
Proof.
  intros [Hsync Horigin].
  destruct occ as [env [target | target related | ]]; cbn [step].
  - destruct (isForwardScrollRef st) eqn:Hlock.
    { unfold onMouseEnter. rewrite Hlock. split; assumption. }
    destruct (onMouseEnter_effect env target st Hlock) as (_ & -> & _).
    destruct (onMouseEnter_session env target st Hlock) as (-> & -> & _).
    split; [reflexivity|]. right.
    destruct (expandedItemRef st); [|eexists; reflexivity].
    destruct Horigin as [Hnone | Hsome]; [discriminate Hnone | exact Hsome].
  - pose proof (onMouseLeave_session target related st) as (_ & _ & Hcases).
    destruct (isForwardScrollRef st && bool_decide (expandedItemRef st = Some target)).
    { rewrite Hcases. split; assumption. }
    destruct (movingWithinGrid (gridOf target) related) as [within|].
    + case_bool_decide as Href.
      * destruct Hcases as (-> & -> & _). split; [reflexivity | left; reflexivity].
      * destruct Hcases as (-> & -> & -> & _). split; assumption.
    + destruct Hcases as (-> & -> & -> & _). split; assumption.
  - destruct (frameQueue st) as [|t rest]; [split; assumption|].
    destruct (runTask_session env t (set_queue rest st)) as (-> & -> & ->).
    split; assumption.
Qed.

Lemma run_session (dom : gmap ItemId bool) (trace : list (Env * Event)) :
  expandedGridRef (run trace (mount dom))
  = gridOf <$> expandedItemRef (run trace (mount dom)) /\
  (expandedItemRef (run trace (mount dom)) = None \/
   is_Some (originalScrollYRef (run trace (mount dom)))).
Proof.
  unfold run.
  assert (Hinit : expandedGridRef (mount dom) = gridOf <$> expandedItemRef (mount dom) /\
                  (expandedItemRef (mount dom) = None \/
                   is_Some (originalScrollYRef (mount dom))))
    by (split; [reflexivity | left; reflexivity]).
  revert Hinit. generalize (mount dom) as st.
  induction trace as [|occ trace IH]; intros st Hinv; [exact Hinv|].
  cbn [fold_left]. apply IH, step_session, Hinv.
Qed.

(** X16.  In every reachable state the two refs agree: [expandedGridRef]
    holds the grid of the item [expandedItemRef] holds, and is empty when
    that one is. *)
Theorem refs_in_sync (dom : gmap ItemId bool) (trace : list (Env * Event)) :
  expandedGridRef (run trace (mount dom))
  = gridOf <$> expandedItemRef (run trace (mount dom)).
Proof. apply run_session. Qed.

(** X17.  In every reachable state with an expanded item and the lock
    free, the scroll offset to return to is on record. When the pointer
    leaves that item for an element outside its grid (or with no related
    target), the page requests a scroll back to that offset, negative
    values raised to 0, forgets it and clears the ref; when it leaves for
    another item of the same grid, the ref is cleared, no scroll is
    requested and the offset is kept; when it leaves the page, so that the
    related target is [window], the handler stops at [grid.contains]: no
    scroll is requested and the ref and the offset stay. *)
Theorem leave_scrolls_back (dom : gmap ItemId bool)
    (trace : list (Env * Event)) (target : ItemId)
    (related : RelatedTarget) :
  expandedItemRef (run trace (mount dom)) = Some target ->
  isForwardScrollRef (run trace (mount dom)) = false ->
  exists orig,
    originalScrollYRef (run trace (mount dom)) = Some orig /\
    match related with
    | toWindow =>
        expandedItemRef (onMouseLeave target related (run trace (mount dom)))
        = Some target /\
        scrollRequests (onMouseLeave target related (run trace (mount dom)))
        = scrollRequests (run trace (mount dom)) /\
        originalScrollYRef (onMouseLeave target related (run trace (mount dom)))
        = Some orig
    | toElement {| containingGrid := Some grid; withinItem := true |} =>
        expandedItemRef (onMouseLeave target related (run trace (mount dom)))
        = None /\
        if bool_decide (grid = gridOf target)
        then scrollRequests (onMouseLeave target related (run trace (mount dom)))
             = scrollRequests (run trace (mount dom)) /\
             originalScrollYRef (onMouseLeave target related (run trace (mount dom)))
             = Some orig
        else scrollRequests (onMouseLeave target related (run trace (mount dom)))
             = Math_max (of_Z 0) orig :: scrollRequests (run trace (mount dom)) /\
             originalScrollYRef (onMouseLeave target related (run trace (mount dom)))
             = None
    | _ =>
        expandedItemRef (onMouseLeave target related (run trace (mount dom)))
        = None /\
        scrollRequests (onMouseLeave target related (run trace (mount dom)))
        = Math_max (of_Z 0) orig :: scrollRequests (run trace (mount dom)) /\
        originalScrollYRef (onMouseLeave target related (run trace (mount dom)))
        = None
    end.
Proof.
  set (st := run trace (mount dom)).
  set (st' := onMouseLeave target related st).
  intros Href Hlock.
  destruct (run_session dom trace) as [_ Horigin]. fold st in Horigin.
  destruct Horigin as [Hnone | [orig Horig]]; [congruence|].
  exists orig. split; [exact Horig|].
  pose proof (onMouseLeave_session target related st) as (_ & _ & Hcases).
  fold st' in Hcases. rewrite Hlock in Hcases. cbn [andb] in Hcases.
  destruct related as [| |[[grid|] [|]]];
    cbn [movingWithinGrid containingGrid withinItem] in Hcases;
    rewrite ?bool_decide_eq_true_2 in Hcases by exact Href;
    rewrite ?Horig in Hcases.
  - destruct Hcases as (Hitem & _ & Hscroll). split; [exact Hitem | exact Hscroll].
  - destruct Hcases as (Hitem & _ & Ho & Hscroll). rewrite Hitem, Ho, Hscroll, Href.
    repeat split; assumption.
  - destruct Hcases as (Hitem & _ & Hscroll). split; [exact Hitem|].
    rewrite andb_true_r in Hscroll.
    destruct (decide (grid = gridOf target)) as [-> | Hne].
    + rewrite bool_decide_eq_true_2 by reflexivity.
      rewrite bool_decide_eq_true_2 in Hscroll by reflexivity. exact Hscroll.
    + rewrite bool_decide_eq_false_2 by exact Hne.
      rewrite bool_decide_eq_false_2 in Hscroll by congruence. exact Hscroll.
  - destruct Hcases as (Hitem & _ & Hscroll). rewrite andb_false_r in Hscroll.
    split; [exact Hitem | exact Hscroll].
  - destruct Hcases as (Hitem & _ & Hscroll).
    rewrite bool_decide_eq_false_2 in Hscroll by discriminate.
    split; [exact Hitem | exact Hscroll].
  - destruct Hcases as (Hitem & _ & Hscroll).
    rewrite bool_decide_eq_false_2 in Hscroll by discriminate.
    split; [exact Hitem | exact Hscroll].
Qed.

Lemma leave_scrolls_back_witness :
  scrollRequests
    (onMouseLeave Scenario.item0 Scenario.outsideGrids
       (run [(Scenario.browser 1000 300 None 620 820 (Some Scenario.item0),
              MouseEnter Scenario.item0)]
            (mount Scenario.dom)))
  = [of_Z 300].
Proof.
  destruct (leave_scrolls_back Scenario.dom
              [(Scenario.browser 1000 300 None 620 820 (Some Scenario.item0),
                MouseEnter Scenario.item0)]
              Scenario.item0 Scenario.outsideGrids)
    as (orig & Horig & _ & Hscroll & _).
  - vm_compute. reflexivity.
  - vm_compute. reflexivity.
  - rewrite Hscroll. vm_compute in Horig. injection Horig as <-.
    vm_compute. reflexivity.
Defined.

Lemma step_poller (st : State) (occ : Env * Event) :
  (isForwardScrollRef st = false \/
   exists y start, In (CheckDone y start) (frameQueue st)) ->
  isForwardScrollRef (step st occ) = false \/
  exists y start, In (CheckDone y start) (frameQueue (step st occ)).
Proof.
  intros Hinv.
  destruct occ as [env [target | target related | ]]; cbn [step].
  - destruct (isForwardScrollRef st) eqn:Hlock.
    { unfold onMouseEnter. rewrite Hlock.
      destruct Hinv as [Hfree | Hpoll]; [discriminate Hfree | right; exact Hpoll]. }
    left. apply (onMouseEnter_effect env target st Hlock).
  - pose proof (onMouseLeave_session target related st) as (-> & [t ->] & _).
    destruct Hinv as [Hfree | (y & start & Hin)]; [left; exact Hfree|].
    right. exists y, start. apply in_or_app. left. exact Hin.
  - destruct (frameQueue st) as [|t rest] eqn:Hq; [rewrite Hq; exact Hinv|].
    assert (Hrest : forall t', t = t' -> (forall y start, t' <> CheckDone y start) ->
              isForwardScrollRef st = false \/
              exists y start, In (CheckDone y start) rest).
    { intros t' <- Hother. destruct Hinv as [Hfree | (y & start & [Heq | Hin])];
        [left; exact Hfree | exfalso; exact (Hother _ _ Heq) | right; eauto]. }
    assert (Hgrow : forall extra,
              (isForwardScrollRef st = false \/
               exists y start, In (CheckDone y start) rest) ->
              isForwardScrollRef st = false \/
              exists y start, In (CheckDone y start) (rest ++ [extra])).
    { intros extra [Hfree | (y & start & Hin)]; [left; exact Hfree|].
      right. exists y, start. apply in_or_app. left. exact Hin. }
    destruct t as [target | target | y start | target | target]; cbn [runTask].
    + unfold_updates. apply Hgrow, (Hrest _ eq_refl). discriminate.
    + destruct (_ || _); unfold_updates.
      * right. eexists. eexists. apply in_or_app. right. left. reflexivity.
      * apply (Hrest _ eq_refl). discriminate.
    + destruct (_ || _); unfold_updates.
      * left. reflexivity.
      * right. exists y, start. apply in_or_app. right. left. reflexivity.
    + unfold_updates. destruct (isForwardScrollRef st) eqn:Hlock; cbn [negb].
      * unfold_updates. apply Hgrow, (Hrest _ eq_refl). discriminate.
      * destruct (negb (hovered env target)); unfold_updates; left; reflexivity.
    + unfold_updates. apply (Hrest _ eq_refl). discriminate.
Qed.

(** X18.  In every reachable state in which the forward scroll lock is
    held, a [checkDone] callback is pending: the lock is never left without
    the polling that releases it. *)
Theorem lock_has_poller (dom : gmap ItemId bool) (trace : list (Env * Event)) :
  isForwardScrollRef (run trace (mount dom)) = false \/
  exists y start, In (CheckDone y start) (frameQueue (run trace (mount dom))).
Proof.
  unfold run.
  assert (Hinit : isForwardScrollRef (mount dom) = false \/
                  exists y start, In (CheckDone y start) (frameQueue (mount dom)))
    by (left; reflexivity).
  revert Hinit. generalize (mount dom) as st.
  induction trace as [|occ trace IH]; intros st Hinv; [exact Hinv|].
  cbn [fold_left]. apply IH, step_poller, Hinv.
Qed.

(** X19.  While the forward scroll lock is held, a pointer-enter changes
    nothing at all, and a pointer-leave requests no scroll, keeps the lock
    and the ref, and leaves the node of the expanded item untouched. *)
Theorem locked_ignores_pointer (env : Env) (target : ItemId)
    (related : RelatedTarget) (st : State) :
  isForwardScrollRef st = true ->
  onMouseEnter env target st = st /\
  scrollRequests (onMouseLeave target related st) = scrollRequests st /\
  isForwardScrollRef (onMouseLeave target related st) = true /\
  expandedItemRef (onMouseLeave target related st) = expandedItemRef st /\
  (forall id, expandedItemRef st = Some id ->
     items (onMouseLeave target related st) !! id = items st !! id).
Proof.
  intros Hlock. split; [unfold onMouseEnter; rewrite Hlock; reflexivity|].
  pose proof (onMouseLeave_session target related st) as (Hl & _ & Hcases).
  rewrite Hlock in Hcases, Hl. cbn [andb] in Hcases.
  case_bool_decide as Href.
  - rewrite Hcases. repeat split; auto.
  - assert (Hsame : expandedItemRef (onMouseLeave target related st)
                    = expandedItemRef st /\
                    scrollRequests (onMouseLeave target related st)
                    = scrollRequests st).
    { destruct (movingWithinGrid (gridOf target) related);
        destruct Hcases as (Hitem & _ & _ & Hscroll); split; assumption. }
    destruct Hsame as [Hitem Hscroll].
    split; [exact Hscroll|]. split; [exact Hl|]. split; [exact Hitem|].
    intros id Hid.
    assert (Hnow : isForwardScrollRef st
                   && bool_decide (expandedItemRef st = Some target) = false).
    { rewrite Hlock. cbn. apply bool_decide_eq_false_2, Href. }
    destruct (onMouseLeave_effect target related st Hnow) as (-> & _).
    apply lookup_alter_ne. congruence.
Qed.

Lemma locked_ignores_pointer_witness :
  onMouseEnter (Scenario.smoothScroll 0) Scenario.item2 Scenario.lockedAt800
  = Scenario.lockedAt800 /\
  scrollRequests (onMouseLeave Scenario.item2 toWindow Scenario.lockedAt800)
  = scrollRequests Scenario.lockedAt800.
Proof.
  destruct (locked_ignores_pointer (Scenario.smoothScroll 0) Scenario.item2 toWindow
              Scenario.lockedAt800) as (Henter & Hleave & _).
  - vm_compute. reflexivity.
  - split; [exact Henter | exact Hleave].
Defined.

(** X20.  With finite readings, the offset a forced scroll asks for is
    never negative, and is no further down than the last offset the
    document can be scrolled to, or 0 when the document does not overflow
    the viewport. *)
Theorem forced_scroll_target_in_range (env : Env) (target : ItemId)
    (st : State) (top sy sh ih : Q) :
  rectTop env target = Fin top ->
  window_scrollY env = Fin sy ->
  document_scrollHeight env = Fin sh ->
  window_innerHeight env = Fin ih ->
  scrollRequests (runTask env (AfterSpan target) st) = scrollRequests st \/
  exists y : Q,
    scrollRequests (runTask env (AfterSpan target) st)
    = Fin y :: scrollRequests st /\
    (0 <= y)%Q /\
    ((y <= sh - ih)%Q \/ (y == 0)%Q) /\
    ((y <= top + sy - 120)%Q \/ (y == 0)%Q).
Proof.
  intros Htop Hsy Hsh Hih. cbn [runTask].
  destruct (_ || _); [|left; reflexivity]. right.
  rewrite Htop, Hsy, Hsh, Hih. unfold_updates.
  set (a := (top + sy + - inject_Z 120)%Q). set (b := (sh + - ih)%Q).
  assert (Ha : (a == top + sy - 120)%Q) by (subst a; change (inject_Z 120) with 120%Q; lra).
  assert (Hb : (b == sh - ih)%Q) by (subst b; lra).
  destruct (Qltb b a) eqn:Hmin.
  - apply Qltb_true in Hmin. destruct (Qltb (inject_Z 0) b) eqn:Hmax.
    + apply Qltb_true in Hmax. change (inject_Z 0) with 0%Q in Hmax.
      exists b. repeat split; [lra | left; lra | left; lra].
    + apply Qltb_false in Hmax. change (inject_Z 0) with 0%Q in Hmax.
      exists (inject_Z 0). change (inject_Z 0) with 0%Q.
      repeat split; [lra | right; lra | right; lra].
  - apply Qltb_false in Hmin. destruct (Qltb (inject_Z 0) a) eqn:Hmax.
    + apply Qltb_true in Hmax. change (inject_Z 0) with 0%Q in Hmax.
      exists a. repeat split; [lra | left; lra | left; lra].
    + apply Qltb_false in Hmax. change (inject_Z 0) with 0%Q in Hmax.
      exists (inject_Z 0). change (inject_Z 0) with 0%Q.
      repeat split; [lra | right; lra | right; lra].
Qed.

Lemma forced_scroll_target_in_range_witness :
  exists y : Q,
    scrollRequests
      (runTask (Scenario.browser 1032 300 (Some Scenario.item0) 620 1220
                  (Some Scenario.item0))
               (AfterSpan Scenario.item0) (mount Scenario.dom))
    = [Fin y] /\ (0 <= y)%Q.
Proof.
  destruct (forced_scroll_target_in_range
              (Scenario.browser 1032 300 (Some Scenario.item0) 620 1220
                 (Some Scenario.item0))
              Scenario.item0 (mount Scenario.dom) 620 300 5000 900)
    as [Hnone | (y & Hy & Hpos & _)]; try reflexivity.
  - vm_compute in Hnone. discriminate Hnone.
  - exists y. split; [exact Hy | exact Hpos].
Defined.

(** X21.  From an idle page (no expanded item, lock free), a pointer-enter
    on a collapsed item with an image expands it (full row, both classes),
    and a pointer-leave that follows at once puts every item node back as
    it was, leaving the two scheduled recomputations in the queue. When
    the pointer left for an element or with no related target, both refs
    are cleared and, unless it moved to an item of the same grid, exactly
    one scroll back to the offset read at the enter is requested; when it
    left the page, so that the related target is [window], the handler
    stops at [grid.contains]: the refs keep pointing at the item and no
    scroll is requested. *)
Theorem enter_leave_round_trip (env : Env) (target : ItemId)
    (related : RelatedTarget) (st : State) (n : ItemNode) :
  isForwardScrollRef st = false ->
  expandedItemRef st = None ->
  items st !! target = Some n ->
  isExpanded n = false ->
  imgNode n = Some false ->
  items (onMouseEnter env target st) !! target
  = Some {| gridColumnFull := true; expandedClass := true;
            ownExpandedImage := ownExpandedImage n; imgNode := Some true;
            gridRowEnd := gridRowEnd n |} /\
  items (onMouseLeave target related (onMouseEnter env target st)) = items st /\
  frameQueue (onMouseLeave target related (onMouseEnter env target st))
  = frameQueue st ++ [AfterExpand target; AfterCollapse target] /\
  match related with
  | toWindow =>
      expandedItemRef (onMouseLeave target related (onMouseEnter env target st))
      = Some target /\
      expandedGridRef (onMouseLeave target related (onMouseEnter env target st))
      = Some (gridOf target) /\
      scrollRequests (onMouseLeave target related (onMouseEnter env target st))
      = scrollRequests st
  | toElement {| containingGrid := Some grid; withinItem := true |} =>
      expandedItemRef (onMouseLeave target related (onMouseEnter env target st))
      = None /\
      expandedGridRef (onMouseLeave target related (onMouseEnter env target st))
      = None /\
      scrollRequests (onMouseLeave target related (onMouseEnter env target st))
      = if bool_decide (grid = gridOf target)
        then scrollRequests st
        else Math_max (of_Z 0) (window_scrollY env) :: scrollRequests st
  | _ =>
      expandedItemRef (onMouseLeave target related (onMouseEnter env target st))
      = None /\
      expandedGridRef (onMouseLeave target related (onMouseEnter env target st))
      = None /\
      scrollRequests (onMouseLeave target related (onMouseEnter env target st))
      = Math_max (of_Z 0) (window_scrollY env) :: scrollRequests st
  end.
Proof.
  intros Hlock Href Hn Hexp Himg.
  destruct (onMouseEnter_effect env target st Hlock) as (Hitems & Hcur & Hq & Hl).
  destruct (onMouseEnter_session env target st Hlock) as (Hgrid & Horig & Hscroll).
  rewrite Href in Hitems, Horig.
  set (mid := onMouseEnter env target st) in *.
  assert (Hnow : isForwardScrollRef mid
                 && bool_decide (expandedItemRef mid = Some target) = false)
    by (rewrite Hl; reflexivity).
  destruct (onMouseLeave_effect target related mid Hnow) as (Hitems' & _ & _).
  pose proof (onMouseLeave_session target related mid) as (_ & [t Hqueue] & Hcases).
  rewrite Hnow in Hcases.
  destruct n as [col cls own img span]. unfold isExpanded in Hexp.
  cbn in Hexp, Himg. apply orb_false_iff in Hexp as [Hcls Hcol]. subst cls col img.
  split.
  { rewrite Hitems, lookup_alter_eq, Hn. reflexivity. }
  split.
  { rewrite Hitems', Hitems, alter_alter_eq. apply alter_id.
    intros x Hx. rewrite Hn in Hx. injection Hx as <-. reflexivity. }
  split.
  { unfold onMouseLeave. rewrite Hnow. unfold_updates.
    destruct (movingWithinGrid (gridOf target) related) as [within|];
      unfold_updates; [|rewrite Hq, <- app_assoc; reflexivity].
    rewrite bool_decide_eq_true_2 by exact Hcur. rewrite Horig.
    destruct (negb within); unfold_updates; rewrite Hq, <- app_assoc; reflexivity. }
  destruct related as [| |[[grid|] [|]]];
    cbn [movingWithinGrid containingGrid withinItem] in Hcases;
    rewrite ?bool_decide_eq_true_2 in Hcases by exact Hcur;
    rewrite ?Horig in Hcases.
  - destruct Hcases as (-> & -> & -> & _). rewrite Hscroll. repeat split; reflexivity.
  - destruct Hcases as (-> & -> & _ & ->). rewrite Hcur, Hgrid, Hscroll.
    repeat split; reflexivity.
  - destruct Hcases as (-> & -> & Hsc). split; [reflexivity|]. split; [reflexivity|].
    rewrite andb_true_r in Hsc.
    destruct (decide (grid = gridOf target)) as [-> | Hne].
    + rewrite bool_decide_eq_true_2 by reflexivity.
      rewrite bool_decide_eq_true_2 in Hsc by reflexivity.
      destruct Hsc as [-> _]. exact Hscroll.
    + rewrite bool_decide_eq_false_2 by exact Hne.
      rewrite bool_decide_eq_false_2 in Hsc by (intros [= E]; contradiction).
      destruct Hsc as [-> _]. rewrite Hscroll. reflexivity.
  - destruct Hcases as (-> & -> & Hsc). rewrite andb_false_r in Hsc.
    destruct Hsc as [-> _]. rewrite Hscroll. repeat split; reflexivity.
  - destruct Hcases as (-> & -> & Hsc).
    rewrite bool_decide_eq_false_2 in Hsc by discriminate.
    destruct Hsc as [-> _]. rewrite Hscroll. repeat split; reflexivity.
  - destruct Hcases as (-> & -> & Hsc).
    rewrite bool_decide_eq_false_2 in Hsc by discriminate.
    destruct Hsc as [-> _]. rewrite Hscroll. repeat split; reflexivity.
Qed.

Lemma enter_leave_round_trip_witness :
  items (onMouseLeave Scenario.item0 Scenario.outsideGrids
           (onMouseEnter (Scenario.browser 1000 300 None 620 820 (Some Scenario.item0))
              Scenario.item0 (mount Scenario.dom)))
  = items (mount Scenario.dom) /\
  scrollRequests
    (onMouseLeave Scenario.item0 Scenario.outsideGrids
       (onMouseEnter (Scenario.browser 1000 300 None 620 820 (Some Scenario.item0))
          Scenario.item0 (mount Scenario.dom)))
  = [of_Z 300].
Proof.
  destruct (enter_leave_round_trip
              (Scenario.browser 1000 300 None 620 820 (Some Scenario.item0))
              Scenario.item0 Scenario.outsideGrids (mount Scenario.dom)
              (freshNode true))
    as (_ & Hitems & _ & _ & _ & Hscroll).
  - reflexivity.
  - reflexivity.
  - vm_compute. reflexivity.
  - reflexivity.
  - reflexivity.
  - split; [exact Hitems|]. rewrite Hscroll. vm_compute. reflexivity.
Defined.

End HoverSessionFacts.

(** ** The polling callbacks *)

Section PollingFacts.
Import JS Masonry Hover Polling.

Ltac unfold_updates :=
  unfold requestAnimationFrame, set_queue, set_refs, set_items, set_original,
    set_lock, resetGridScale, scrollTo, dispatchEvent;
  cbn.

















End PollingFacts.
